(** * web-scraper: sitemap resolver, reachability probe, load-test scheduler
      and statistics aggregator

    A shallow embedding of [src/index.ts] (sitemap resolver and reachability
    probe) and [src/load-test.ts] (scheduler and aggregator), with the
    properties of the design document stated and settled against it. *)

From Stdlib Require Import ZArith QArith Lia.
From stdpp Require Import base gmap sets list strings sorting.

#[local] Set Warnings "-clear-no-such-hyp".

Local Close Scope Q_scope.
Local Open Scope Z_scope.

(** ** JavaScript numbers and completions *)

Module JS.

(** A JavaScript [number].  Finite values are kept as exact rationals (the
    rounding of IEEE doubles is not modelled, and [-0] is identified with
    [0]); the three special values are kept apart because the code's
    [x || 0] guards depend on which of them a computation produces. *)
Inductive number : Type :=
| NaN
| PosInf
| NegInf
| Fin (q : Q).

Definition ofZ (z : Z) : number := Fin (inject_Z z).
Definition ofNat (n : nat) : number := ofZ (Z.of_nat n).
Definition zero : number := Fin 0%Q.

(** [ToBoolean] on numbers: [NaN] and [0] are falsy, everything else,
    the infinities included, is truthy. *)
Definition truthy (x : number) : bool :=
  match x with
  | NaN => false
  | PosInf | NegInf => true
  | Fin q => negb (Qeq_bool q 0%Q)
  end.

(** [x || y] *)
Definition or_else (x y : number) : number := if truthy x then x else y.

Definition Qsign_pos (q : Q) : bool := Z.ltb 0 (Qnum q).

(** [x / y] *)
Definition div (x y : number) : number :=
  match x, y with
  | NaN, _ | _, NaN => NaN
  | (PosInf | NegInf), (PosInf | NegInf) => NaN
  | PosInf, Fin b => if Z.ltb (Qnum b) 0 then NegInf else PosInf
  | NegInf, Fin b => if Z.ltb (Qnum b) 0 then PosInf else NegInf
  | Fin _, (PosInf | NegInf) => zero
  | Fin a, Fin b =>
      if Qeq_bool b 0%Q then
        if Qeq_bool a 0%Q then NaN
        else if Qsign_pos a then PosInf else NegInf
      else Fin (a / b)%Q
  end.

(** [x <= y] on numbers that are not [NaN]. *)
Definition leb (x y : number) : bool :=
  match x, y with
  | NaN, _ | _, NaN => false
  | NegInf, _ => true
  | _, PosInf => true
  | PosInf, _ => false
  | _, NegInf => false
  | Fin a, Fin b => Qle_bool a b
  end.

Definition min2 (x y : number) : number :=
  match x, y with
  | NaN, _ | _, NaN => NaN
  | _, _ => if leb x y then x else y
  end.

Definition max2 (x y : number) : number :=
  match x, y with
  | NaN, _ | _, NaN => NaN
  | _, _ => if leb x y then y else x
  end.

(** [Math.min(...xs)] and [Math.max(...xs)]: with no argument they return
    [Infinity] and [-Infinity]. *)
Definition Math_min (xs : list number) : number := foldr min2 PosInf xs.
Definition Math_max (xs : list number) : number := foldr max2 NegInf xs.

(** The outcome of evaluating a piece of code: a value, or a thrown
    exception. *)
Inductive completion (E A : Type) : Type :=
| Normal (a : A)
| Throw (e : E).
Global Arguments Normal {E A} a.
Global Arguments Throw {E A} e.

(** [try { body } catch (e) { handler e }] *)
Definition try_catch {E A} (body : completion E A) (handler : E → completion E A)
  : completion E A :=
  match body with
  | Normal a => Normal a
  | Throw e => handler e
  end.

(** [s.endsWith(suffix)] *)
Definition endsWith (s suffix : string) : bool :=
  let n := String.length s in
  let k := String.length suffix in
  if Nat.leb k n then bool_decide (String.substring (n - k) k s = suffix) else false.

End JS.

(** ** load-test.ts *)

Module LoadTest.
Import JS.

(** [interface LoadTestResult].  [responseTime] and [timestamp] are only
    ever written by [loadTestUrl], from readings of [Date.now()], so they
    are integers (milliseconds). *)
Record LoadTestResult : Type := {
  url : string;
  success : bool;
  statusCode : option Z;
  responseTime : Z;
  error : option string;
  timestamp : Z
}.

(** [interface LoadTestSummary] *)
Record LoadTestSummary : Type := {
  totalRequests : nat;
  successfulRequests : nat;
  failedRequests : nat;
  averageResponseTime : number;
  minResponseTime : number;
  maxResponseTime : number;
  requestsPerSecond : number;
  duration : number;
  statusCodeDistribution : gmap Z nat;
  errors : gmap string nat
}.

(** [m[k] = (m[k] || 0) + 1] *)
Definition bump `{Countable K} (k : K) (m : gmap K nat) : gmap K nat :=
  <[k := S (default 0%nat (m !! k))]> m.

(** [if (r.statusCode) ...]: [undefined] and [0] are falsy. *)
Definition countStatus (m : gmap Z nat) (r : LoadTestResult) : gmap Z nat :=
  match statusCode r with
  | Some c => if bool_decide (c = 0) then m else bump c m
  | None => m
  end.

(** [if (r.error) ...]: [undefined] and the empty string are falsy. *)
Definition countError (m : gmap string nat) (r : LoadTestResult) : gmap string nat :=
  match error r with
  | Some e => if bool_decide (e = EmptyString) then m else bump e m
  | None => m
  end.

(** [function calculateLoadTestSummary(results, duration)] *)
Definition calculateLoadTestSummary (results : list LoadTestResult) (duration : number)
  : LoadTestSummary :=
  let responseTimes := map responseTime results in
  let successfulResults := filter (λ r, success r = true) results in
  let failedResults := filter (λ r, success r = false) results in
  let statusCodeDistribution := foldl countStatus ∅ results in
  let errors := foldl countError ∅ failedResults in
  {| totalRequests := length results;
     successfulRequests := length successfulResults;
     failedRequests := length failedResults;
     averageResponseTime :=
       or_else (div (ofZ (foldl Z.add 0 responseTimes)) (ofNat (length responseTimes))) zero;
     minResponseTime := or_else (Math_min (map ofZ responseTimes)) zero;
     maxResponseTime := or_else (Math_max (map ofZ responseTimes)) zero;
     requestsPerSecond := or_else (div (ofNat (length results)) duration) zero;
     duration := duration;
     statusCodeDistribution := statusCodeDistribution;
     errors := errors |}.

(** *** The scheduler *)

(** The [options] argument of [runLoadTest].  A field that is [undefined]
    (or [NaN], which the command line's [parseInt] can produce) is [None];
    the command line passes integers. *)
Record Options : Type := {
  opt_concurrency : option Z;
  opt_requestsPerUrl : option Z;
  opt_duration : option Z
}.

(** [options.field || dflt] on an optional integer: [undefined] and [0]
    are falsy. *)
Definition orDefault (o : option Z) (dflt : Z) : Z :=
  match o with
  | Some v => if bool_decide (v = 0) then dflt else v
  | None => dflt
  end.

(** An element of [requestQueue]: [{ url, index }]. *)
Record RequestQueueItem : Type := {
  item_url : string;
  item_index : nat
}.

(** [urls.forEach((url) => { requestQueue.push({ url, index: i }); })] *)
Definition pushAll (i : nat) (urls : list string) (requestQueue : list RequestQueueItem)
  : list RequestQueueItem :=
  foldl (λ q u, q ++ [{| item_url := u; item_index := i |}]) requestQueue urls.

(** [for (let i = 0; i < requestsPerUrl; i++) { ... }], starting from the
    empty queue.  The loop body runs for [i = 0, 1, ...] while
    [i < requestsPerUrl], that is [Z.to_nat requestsPerUrl] times. *)
Definition buildQueue (urls : list string) (requestsPerUrl : Z) : list RequestQueueItem :=
  foldl (λ q i, pushAll i urls q) [] (seq 0 (Z.to_nat requestsPerUrl)).

(** What the transport answers to one GET issued with
    [validateStatus: () => true]: a response with some status code, or a
    transport failure carrying a message. *)
Inductive Response : Type :=
| Status (code : Z)
| Failure (message : string).

(** The environment of a run: for the [k]-th request issued (counted from
    0) to a URL, the answer and the time (ms) it takes to arrive. *)
Record World : Type := {
  respond : nat → string → Response;
  latency : nat → string → Z
}.

(** [async function loadTestUrl(url)], started at [startTime] and resumed
    by the transport at [endTime]. *)
Definition loadTestUrl (w : World) (k : nat) (u : string) (startTime endTime : Z)
  : LoadTestResult :=
  match respond w k u with
  | Status code =>
      {| url := u;
         success := (200 <=? code) && (code <? 400);
         statusCode := Some code;
         responseTime := endTime - startTime;
         error := None;
         timestamp := endTime |}
  | Failure message =>
      {| url := u;
         success := false;
         statusCode := None;
         responseTime := endTime - startTime;
         error := Some message;
         timestamp := endTime |}
  end.

(** A pending [requestPromise] in [activeRequests]. *)
Record InFlight : Type := {
  rid : nat;
  item : RequestQueueItem;
  started : Z;
  finishes : Z
}.

(** Where the coordinator [processQueue] stands: at the top of the
    [for ... of] body, suspended in [await Promise.race(activeRequests)],
    just resumed from it, suspended in [await Promise.all(activeRequests)],
    or returned. *)
Inductive Pc : Type := LoopTop | AwaitRace | Resumed | AwaitAll | Returned.

Global Instance Pc_eq_dec : EqDecision Pc.
Proof. solve_decision. Defined.

(** The state of a run.  [pending] holds the items the [for ... of] loop
    has not dispatched yet, the current one first. *)
Record Sched : Type := {
  pc : Pc;
  pending : list RequestQueueItem;
  activeRequests : list InFlight;
  results : list LoadTestResult;
  requestsMade : nat;
  now : Z;
  issued : nat
}.

Definition setPc (p : Pc) (s : Sched) : Sched :=
  {| pc := p; pending := pending s; activeRequests := activeRequests s;
     results := results s; requestsMade := requestsMade s; now := now s;
     issued := issued s |}.

(** [duration && (Date.now() - testStartTime) / 1000 >= duration] *)
Definition durationReached (duration : option Z) (testStartTime t : Z) : bool :=
  match duration with
  | Some d => negb (bool_decide (d = 0)) && (1000 * d <=? t - testStartTime)
  | None => false
  end.

(** Creating [requestPromise] for the current item and pushing it on
    [activeRequests]; the loop moves on to the next item. *)
Definition dispatch (w : World) (s : Sched) : Sched :=
  match pending s with
  | [] => setPc LoopTop s
  | it :: rest =>
      {| pc := LoopTop;
         pending := rest;
         activeRequests :=
           activeRequests s ++
             [{| rid := issued s; item := it; started := now s;
                 finishes := now s + latency w (issued s) (item_url it) |}];
         results := results s;
         requestsMade := requestsMade s;
         now := now s;
         issued := S (issued s) |}
  end.

(** The request whose answer arrives first; among equals, the one that
    comes first in [activeRequests]. *)
Fixpoint earliest (l : list InFlight) : option InFlight :=
  match l with
  | [] => None
  | r :: l' =>
      match earliest l' with
      | Some r' => if finishes r <=? finishes r' then Some r else Some r'
      | None => Some r
      end
  end.

(** [activeRequests.indexOf(requestPromise)] followed by [splice(index, 1)]. *)
Fixpoint removeRequest (k : nat) (l : list InFlight) : list InFlight :=
  match l with
  | [] => []
  | r :: l' => if bool_decide (rid r = k) then l' else r :: removeRequest k l'
  end.

(** The answer to request [r] arrives: the body of [requestPromise] pushes
    the result, and its [finally] callback takes the promise out of
    [activeRequests], before anything awaiting the promise is resumed. *)
Definition complete (w : World) (r : InFlight) (s : Sched) : Sched :=
  let t := Z.max (now s) (finishes r) in
  {| pc := pc s;
     pending := pending s;
     activeRequests := removeRequest (rid r) (activeRequests s);
     results := results s ++ [loadTestUrl w (rid r) (item_url (item r)) (started r) t];
     requestsMade := S (requestsMade s);
     now := t;
     issued := issued s |}.

(** One step of [processQueue] together with the event loop.  The
    coordinator runs without interruption from one [await] to the next, so
    answers are only processed while it is suspended, one at a time, in
    the order they arrive.
    - [LoopTop]: the loop is over ([pending] empty) or the duration check
      fires ([break]): go on to [await Promise.all(activeRequests)];
      otherwise, with [activeRequests.length >= concurrency], suspend in
      [await Promise.race(activeRequests)]; otherwise dispatch.
    - [AwaitRace]: the first answer arrives.  The [finally] callback of a
      request promise was registered when the request was dispatched, the
      reaction of [Promise.race] later, so the promise is out of
      [activeRequests] when the coordinator resumes.
    - [Resumed]: the coordinator dispatches the current item; the duration
      and the length of [activeRequests] are not looked at again.
    - [AwaitAll]: the remaining answers arrive one by one; with none left
      [processQueue] returns.
    [None]: no step is possible, because the function has returned or
    because it awaits [Promise.race([])], which never settles. *)
Definition step (w : World) (concurrency : Z) (duration : option Z) (testStartTime : Z)
    (s : Sched) : option Sched :=
  match pc s with
  | LoopTop =>
      match pending s with
      | [] => Some (setPc AwaitAll s)
      | _ :: _ =>
          if durationReached duration testStartTime (now s) then Some (setPc AwaitAll s)
          else if concurrency <=? Z.of_nat (length (activeRequests s))
               then Some (setPc AwaitRace s)
               else Some (dispatch w s)
      end
  | AwaitRace =>
      match earliest (activeRequests s) with
      | Some r => Some (setPc Resumed (complete w r s))
      | None => None
      end
  | Resumed => Some (dispatch w s)
  | AwaitAll =>
      match earliest (activeRequests s) with
      | Some r => Some (complete w r s)
      | None => Some (setPc Returned s)
      end
  | Returned => None
  end.

(** The state after at most [n] steps. *)
Fixpoint steps (w : World) (concurrency : Z) (duration : option Z) (testStartTime : Z)
    (n : nat) (s : Sched) : Sched :=
  match n with
  | O => s
  | S n' =>
      match step w concurrency duration testStartTime s with
      | Some s' => steps w concurrency duration testStartTime n' s'
      | None => s
      end
  end.

Definition initial (requestQueue : list RequestQueueItem) (testStartTime : Z) : Sched :=
  {| pc := LoopTop; pending := requestQueue; activeRequests := []; results := [];
     requestsMade := 0; now := testStartTime; issued := 0 |}.

(** Steps enough for any run that returns (three per queue item, three
    more to drain and return). *)
Definition enough (requestQueue : list RequestQueueItem) : nat :=
  3 * length requestQueue + 3.

(** [export async function runLoadTest(urls, options)], called at time
    [testStartTime].  [None]: the promise it returns never settles. *)
Definition runLoadTest (w : World) (testStartTime : Z) (urls : list string) (options : Options)
  : option (list LoadTestResult * LoadTestSummary) :=
  let concurrency := orDefault (opt_concurrency options) 10 in
  let requestsPerUrl := orDefault (opt_requestsPerUrl options) 1 in
  let duration := opt_duration options in
  let requestQueue := buildQueue urls requestsPerUrl in
  let final :=
    steps w concurrency duration testStartTime (enough requestQueue)
      (initial requestQueue testStartTime) in
  match pc final with
  | Returned =>
      let testDuration := div (ofZ (now final - testStartTime)) (ofZ 1000) in
      Some (results final, calculateLoadTestSummary (results final) testDuration)
  | _ => None
  end.

(** The states a run goes through. *)
Definition reachable (w : World) (testStartTime : Z) (urls : list string) (options : Options)
    (s : Sched) : Prop :=
  ∃ n, s = steps w (orDefault (opt_concurrency options) 10) (opt_duration options)
             testStartTime n
             (initial (buildQueue urls (orDefault (opt_requestsPerUrl options) 1))
                      testStartTime).

(** Sample inputs: a world where every request is answered [200] after
    [ms] milliseconds, and an options object with all three fields. *)
Definition steadyWorld (ms : Z) : World :=
  {| respond := λ _ _, Status 200; latency := λ _ _, ms |}.

Definition mkOptions (concurrency requestsPerUrl : Z) (duration : option Z) : Options :=
  {| opt_concurrency := Some concurrency;
     opt_requestsPerUrl := Some requestsPerUrl;
     opt_duration := duration |}.

(** The state of a sample run (one request per URL, started at time 0)
    after [n] steps. *)
Definition sampleRun (w : World) (concurrency : Z) (duration : option Z)
    (urls : list string) (n : nat) : Sched :=
  steps w concurrency duration 0 n (initial (buildQueue urls 1) 0).

(** The request queue in the words of the design document: the
    cross-product of the URLs and the repetition indices [0, n), one
    repetition pass after the other, the URLs in their order within each
    pass. *)
Definition spec_requestQueue (urls : list string) (n : nat) : list RequestQueueItem :=
  flat_map (λ i, map (λ u, {| item_url := u; item_index := i |}) urls) (seq 0 n).

(** The time (ms) the scheduler needs to drain the full queue: the length
    of the run that has the same options but no duration cap. *)
Definition drainTime (w : World) (testStartTime : Z) (urls : list string) (options : Options)
  : Z :=
  let requestQueue := buildQueue urls (orDefault (opt_requestsPerUrl options) 1) in
  now (steps w (orDefault (opt_concurrency options) 10) None testStartTime
         (enough requestQueue) (initial requestQueue testStartTime))
  - testStartTime.

(** The last sentence of the duration-cap property in the words of the
    design document: a cap below the time needed to drain the full queue
    leaves fewer than [n × k] results. *)
Definition spec_cap_below_drain_time (w : World) (testStartTime : Z) (urls : list string)
    (options : Options) : Prop :=
  ∀ d, opt_duration options = Some d → 0 < d →
    1000 * d < drainTime w testStartTime urls options →
    ∃ rs summary,
      runLoadTest w testStartTime urls options = Some (rs, summary) ∧
      Z.of_nat (length rs)
        < Z.of_nat (length urls) * orDefault (opt_requestsPerUrl options) 1.

(** What every state of a run with a positive concurrency limit
    satisfies; [requestQueue] is the queue the run started from. *)
Definition inv (concurrency : Z) (duration : option Z) (testStartTime : Z)
    (requestQueue : list RequestQueueItem) (s : Sched) : Prop :=
  Z.of_nat (length (activeRequests s)) <= concurrency ∧
  (pc s = AwaitRace → activeRequests s ≠ [] ∧ pending s ≠ []) ∧
  (pc s = Resumed → Z.of_nat (length (activeRequests s)) < concurrency ∧ pending s ≠ []) ∧
  issued s = (length (results s) + length (activeRequests s))%nat ∧
  (issued s + length (pending s))%nat = length requestQueue ∧
  (pc s = Returned → activeRequests s = []) ∧
  (pc s = AwaitAll ∨ pc s = Returned →
     pending s = [] ∨ ∃ t, durationReached duration testStartTime t = true).

(** A bound on the number of steps a state is away from [Returned]. *)
Definition measure (s : Sched) : nat :=
  match pc s with
  | LoopTop => 3 * length (pending s) + length (activeRequests s) + 3
  | AwaitRace | Resumed => 3 * length (pending s) + length (activeRequests s) + 2
  | AwaitAll => length (activeRequests s) + 1
  | Returned => 0
  end.

End LoadTest.

(** ** index.ts *)

Module Sitemap.
Import JS.

(** What [catch (error)] can receive.  [axios.isAxiosError(error)] reads
    the first field, [error.response?.status] the second. *)
Record Error : Type := {
  isAxiosError : bool;
  response_status : option Z;
  message : string
}.

(** *** Reachability probe *)

(** What the network does with one HEAD request: it answers with a status
    code, or the exchange fails (timeout, DNS, connection reset). *)
Inductive Transport : Type :=
| Answered (status : Z)
| Broken (reason : string).

(** [await axios.head(url, { timeout, headers })].  No [validateStatus] is
    passed, so the library's default applies: a status in [200, 300)
    resolves, any other status rejects with an [AxiosError] that carries
    the response, and a transport failure rejects with an [AxiosError]
    without response. *)
Definition axios_head (t : Transport) : completion Error Z :=
  match t with
  | Answered status =>
      if (200 <=? status) && (status <? 300) then Normal status
      else Throw {| isAxiosError := true; response_status := Some status;
                    message := "Request failed" |}
  | Broken reason =>
      Throw {| isAxiosError := true; response_status := None; message := reason |}
  end.

(** [axios.isAxiosError(error) && error.response?.status === 404] *)
Definition isNotFound (error : Error) : bool :=
  isAxiosError error && bool_decide (response_status error = Some 404).

(** [export async function checkPageExist(url)], given what
    [await axios.head(url, ...)] evaluates to. *)
Definition checkPageExist (probe : completion Error Z) : completion Error bool :=
  try_catch
    (match probe with
     | Normal _ => Normal true
     | Throw e => Throw e
     end)
    (λ error, if isNotFound error then Normal false else Throw error).

(** *** Sitemap documents *)

(** [interface SitemapUrl] *)
Record SitemapUrl : Type := {
  SitemapUrl_loc : list string;
  SitemapUrl_lastmod : option (list string);
  changefreq : option (list string);
  priority : option (list string)
}.

(** [interface SitemapUrlSet] *)
Record SitemapUrlSet : Type := { url : list SitemapUrl }.

(** [interface SitemapEntry] *)
Record SitemapEntry : Type := {
  SitemapEntry_loc : list string;
  SitemapEntry_lastmod : option (list string)
}.

(** [interface SitemapIndex] *)
Record SitemapIndex : Type := { sitemap : list SitemapEntry }.

(** [interface ParsedSitemap] *)
Record ParsedSitemap : Type := {
  urlset : option SitemapUrlSet;
  sitemapIndex : option SitemapIndex
}.

(** The body served at a URL: XML that [parseXML] turns into a
    [ParsedSitemap], or something it rejects. *)
Inductive Body : Type :=
| WellFormed (result : ParsedSitemap)
| Malformed.

(** The sitemap graph: the bodies served at the URLs that answer a GET.
    A URL outside the map does not answer. *)
Abbreviation Web := (gmap string Body).

(** The state the recursion shares: the [visitedSitemaps] set, and (for
    the statements about fetching) the URLs [axios.get] was called on,
    oldest first. *)
Record Crawl : Type := {
  visitedSitemaps : gset string;
  fetched : list string
}.

(** Code that reads and writes the shared state and may throw.  [None]
    means the recursion budget of the embedding ran out. *)
Definition M (A : Type) : Type := Crawl → option (completion Error A * Crawl).

Definition ret {A} (a : A) : M A := λ st, Some (Normal a, st).

Definition bind {A B} (m : M A) (f : A → M B) : M B :=
  λ st,
    match m st with
    | Some (Normal a, st') => f a st'
    | Some (Throw e, st') => Some (Throw e, st')
    | None => None
    end.

Global Instance M_ret : MRet M := @ret.
Global Instance M_bind : MBind M := λ A B f m, bind m f.

(** [try { body } catch (error) { handler error }] *)
Definition tryM {A} (body : M A) (handler : Error → M A) : M A :=
  λ st,
    match body st with
    | Some (Throw e, st') => handler e st'
    | other => other
    end.

(** [visitedSitemaps.add(sitemapUrl)] *)
Definition markVisited (sitemapUrl : string) : M unit :=
  λ st, Some (Normal tt, {| visitedSitemaps := {[sitemapUrl]} ∪ visitedSitemaps st;
                            fetched := fetched st |}).

(** [await axios.get(sitemapUrl, ...)] *)
Definition axios_get (web : Web) (sitemapUrl : string) : M Body :=
  λ st,
    let st' := {| visitedSitemaps := visitedSitemaps st;
                  fetched := fetched st ++ [sitemapUrl] |} in
    match web !! sitemapUrl with
    | Some data => Some (Normal data, st')
    | None =>
        Some (Throw {| isAxiosError := true; response_status := None;
                       message := "Request failed" |}, st')
    end.

(** [await parseXML(data)] *)
Definition parseXML (data : Body) : M ParsedSitemap :=
  match data with
  | WellFormed result => ret result
  | Malformed =>
      λ st, Some (Throw {| isAxiosError := false; response_status := None;
                           message := "Invalid XML" |}, st)
  end.

(** [for (const sitemap of sitemaps) { ... }] of the sitemap-index branch;
    [self] is the recursive call and [urls] the array built so far.
    [sitemap.loc && sitemap.loc[0]] holds when the first element of [loc]
    exists and is not the empty string. *)
Fixpoint forSitemaps (self : string → M (list string)) (sitemaps : list SitemapEntry)
    (urls : list string) : M (list string) :=
  match sitemaps with
  | [] => ret urls
  | sitemap :: rest =>
      match SitemapEntry_loc sitemap with
      | childUrl :: _ =>
          if bool_decide (childUrl = EmptyString) then forSitemaps self rest urls
          else if endsWith childUrl ".xml" then
            childUrls ← self childUrl;
            forSitemaps self rest (urls ++ childUrls)
          else forSitemaps self rest (urls ++ [childUrl])
      | [] => forSitemaps self rest urls
      end
  end.

(** [for (const urlEntry of urlEntries) { ... }] of the urlset branch. *)
Fixpoint forUrlEntries (self : string → M (list string)) (urlEntries : list SitemapUrl)
    (urls : list string) : M (list string) :=
  match urlEntries with
  | [] => ret urls
  | urlEntry :: rest =>
      match SitemapUrl_loc urlEntry with
      | entryUrl :: _ =>
          if bool_decide (entryUrl = EmptyString) then forUrlEntries self rest urls
          else if endsWith entryUrl ".xml" then
            childUrls ← self entryUrl;
            forUrlEntries self rest (urls ++ childUrls)
          else forUrlEntries self rest (urls ++ [entryUrl])
      | [] => forUrlEntries self rest urls
      end
  end.

(** [async function extractUrlsFromSitemap(sitemapUrl, visitedSitemaps)].
    [fuel] bounds the depth of the recursion.  The conditions
    [result.sitemapIndex && result.sitemapIndex.sitemap] and
    [result.urlset && result.urlset.url] hold when the optional field is
    there: its array, of the declared type, is truthy even when empty. *)
Fixpoint extractUrlsFromSitemap (web : Web) (fuel : nat) (sitemapUrl : string)
  : M (list string) :=
  match fuel with
  | O => λ _, None
  | S fuel' =>
      λ st,
        if bool_decide (sitemapUrl ∈ visitedSitemaps st) then ret [] st
        else
          (markVisited sitemapUrl;;
           tryM
             (data ← axios_get web sitemapUrl;
              result ← parseXML data;
              match sitemapIndex result with
              | Some index =>
                  forSitemaps (extractUrlsFromSitemap web fuel') (sitemap index) []
              | None =>
                  match urlset result with
                  | Some set => forUrlEntries (extractUrlsFromSitemap web fuel') (url set) []
                  | None => ret []
                  end
              end)
             (λ error, ret [])) st
  end.

(** The location an entry contributes: [loc[0]]. *)
Definition firstLoc (loc : list string) : list string :=
  match loc with
  | l :: _ => [l]
  | [] => []
  end.

(** Every location a document mentions. *)
Definition locations (data : Body) : list string :=
  match data with
  | WellFormed result =>
      match sitemapIndex result with
      | Some index => flat_map (λ e, firstLoc (SitemapEntry_loc e)) (sitemap index)
      | None => []
      end ++
      match urlset result with
      | Some set => flat_map (λ e, firstLoc (SitemapUrl_loc e)) (url set)
      | None => []
      end
  | Malformed => []
  end.

(** Every URL a resolution started at [root] can be called on. *)
Definition universe (web : Web) (root : string) : gset string :=
  {[root]} ∪ list_to_set (flat_map (λ kv, locations (snd kv)) (map_to_list web)).

Definition fresh : Crawl := {| visitedSitemaps := ∅; fetched := [] |}.

(** The top-level call [extractUrlsFromSitemap(sitemapUrl, new Set())],
    with a recursion budget of one more than the number of URLs in the
    graph. *)
Definition resolve (web : Web) (root : string)
  : option (completion Error (list string) * Crawl) :=
  extractUrlsFromSitemap web (S (size (universe web root))) root fresh.

(** A urlset entry read as a sitemap-index entry with the same [loc]. *)
Definition asSitemapEntry (urlEntry : SitemapUrl) : SitemapEntry :=
  {| SitemapEntry_loc := SitemapUrl_loc urlEntry;
     SitemapEntry_lastmod := SitemapUrl_lastmod urlEntry |}.

(** [st'] comes after [st]: the visited set has grown, and the URLs
    fetched in between are pairwise distinct, visited now and not visited
    before. *)
Definition extends (st st' : Crawl) : Prop :=
  visitedSitemaps st ⊆ visitedSitemaps st' ∧
  ∃ new, fetched st' = fetched st ++ new ∧ NoDup new ∧
         Forall (λ u, u ∈ visitedSitemaps st' ∧ u ∉ visitedSitemaps st) new.

(** What a loop over the entries of a document delivers. *)
Definition loopGood (st : Crawl) (r : option (completion Error (list string) * Crawl))
  : Prop :=
  ∃ urls st', r = Some (Normal urls, st') ∧ extends st st' ∧
              Forall (λ u, endsWith u ".xml" = false) urls.

(** What a call of [extractUrlsFromSitemap] on [sitemapUrl] delivers. *)
Definition callGood (sitemapUrl : string) (st : Crawl)
    (r : option (completion Error (list string) * Crawl)) : Prop :=
  ∃ urls st', r = Some (Normal urls, st') ∧ extends st st' ∧
              Forall (λ u, endsWith u ".xml" = false) urls ∧
              (sitemapUrl ∈ visitedSitemaps st ∨
               sitemapUrl ∈ visitedSitemaps st' ∧
               ∃ rest, fetched st' = fetched st ++ sitemapUrl :: rest).

(** Sample documents: a sitemap index and a urlset listing the given
    locations. *)
Definition indexOf (locs : list string) : Body :=
  WellFormed
    {| urlset := None;
       sitemapIndex :=
         Some {| sitemap := map (λ l, {| SitemapEntry_loc := [l];
                                         SitemapEntry_lastmod := None |}) locs |} |}.

Definition urlsetOf (locs : list string) : Body :=
  WellFormed
    {| urlset :=
         Some {| url := map (λ l, {| SitemapUrl_loc := [l]; SitemapUrl_lastmod := None;
                                     changefreq := None; priority := None |}) locs |};
       sitemapIndex := None |}.

(** The example of the design document: index A references B and C; B
    references A (a cycle) and D. *)
Definition cyclicWeb : Web :=
  <["A.xml" := indexOf ["B.xml"; "C.xml"]]>
  (<["B.xml" := indexOf ["A.xml"; "D.xml"]]>
  (<["C.xml" := urlsetOf ["c1"; "c2"]]>
  (<["D.xml" := urlsetOf ["d1"; "E.xml"]]> ∅))).

End Sitemap.

(** ** index.ts: the top-level script *)

Module Main.
Import JS Sitemap.

(** The loop [for (let i = 0; i < urls.length; i++) { ... }] that checks
    each URL for a 404, from index [i] on; [head i url] is what the
    network does with the HEAD request of iteration [i].  An exception of
    [checkPageExist] is caught and logged inside the loop body. *)
Fixpoint checkPages (head : nat → string → Transport) (i : nat) (urls : list string)
    (notFoundUrls : list string) : list string :=
  match urls with
  | [] => notFoundUrls
  | url :: rest =>
      match
        try_catch
          (match checkPageExist (axios_head (head i url)) with
           | Normal pageExists =>
               if negb pageExists then Normal (notFoundUrls ++ [url])
               else Normal notFoundUrls
           | Throw e => Throw e
           end)
          (λ error, Normal notFoundUrls)
      with
      | Normal notFoundUrls' => checkPages head (S i) rest notFoundUrls'
      | Throw _ => notFoundUrls
      end
  end.

(** The branch of the script that scrapes [sitemapUrl]: what it writes to
    [output/urls.json] and to [output/404-pages.json].  [None]: the
    top-level [await] of the resolver did not deliver a list. *)
Definition scrape (web : Web) (head : nat → string → Transport) (sitemapUrl : string)
  : option (list string * list string) :=
  match resolve web sitemapUrl with
  | Some (Normal urls, _) => Some (urls, checkPages head 0 urls [])
  | _ => None
  end.

Definition is404 (t : Transport) : bool :=
  match t with
  | Answered status => bool_decide (status = 404)
  | Broken _ => false
  end.

(** Sample answers: OK, not found, server error, then timeouts. *)
Definition sampleHead (i : nat) (url : string) : Transport :=
  match i with
  | 0%nat => Answered 200
  | 1%nat => Answered 404
  | 2%nat => Answered 500
  | _ => Broken "timeout"
  end.

(** The URLs of [urls], from index [i] on, whose HEAD request is answered
    404. *)
Fixpoint answered404 (head : nat → string → Transport) (i : nat) (urls : list string)
  : list string :=
  match urls with
  | [] => []
  | url :: rest =>
      if is404 (head i url)
      then url :: answered404 head (S i) rest
      else answered404 head (S i) rest
  end.

End Main.

(** ** Auxiliary notions for the further properties *)

Module Aux.
Import JS LoadTest Sitemap.

(** The key under which a result is counted in a histogram, if any. *)
Definition statusKey (r : LoadTestResult) : option Z :=
  match statusCode r with
  | Some c => if bool_decide (c = 0) then None else Some c
  | None => None
  end.

Definition errorKey (r : LoadTestResult) : option string :=
  match error r with
  | Some e => if bool_decide (e = EmptyString) then None else Some e
  | None => None
  end.

(** The names every plain object inherits from [Object.prototype]: for
    these [errors[name]] is not [undefined] on an empty [errors]. *)
Definition inheritedProperty (name : string) : bool :=
  bool_decide (name ∈ ["constructor"; "__proto__"; "hasOwnProperty"; "isPrototypeOf";
                       "propertyIsEnumerable"; "toLocaleString"; "toString"; "valueOf";
                       "__defineGetter__"; "__defineSetter__";
                       "__lookupGetter__"; "__lookupSetter__"]).

(** Counting a result under its key. *)
Definition bumpKey `{Countable K} (key : LoadTestResult → option K) (m : gmap K nat)
    (r : LoadTestResult) : gmap K nat :=
  match key r with
  | Some k => bump k m
  | None => m
  end.

(** The number of results with key [k]. *)
Definition occurrences `{Countable K} (key : LoadTestResult → option K) (k : K)
    (results : list LoadTestResult) : nat :=
  length (filter (λ r, key r = Some k) results).

(** What [loadTestUrl] guarantees of a result: a status code or an error
    description, never both and never neither, and [success] only with a
    status code in [200, 400). *)
Definition resultOk (r : LoadTestResult) : Prop :=
  0 <= responseTime r ∧
  match statusCode r with
  | Some code => error r = None ∧ success r = (200 <=? code) && (code <? 400)
  | None => is_Some (error r) ∧ success r = false
  end.

(** What every state of a run satisfies, whatever the concurrency limit. *)
Definition inv2 (requestQueue : list RequestQueueItem) (s : Sched) : Prop :=
  pending s = drop (issued s) requestQueue ∧
  (issued s <= length requestQueue)%nat ∧
  issued s = (length (results s) + length (activeRequests s))%nat ∧
  requestsMade s = length (results s) ∧
  NoDup (map rid (activeRequests s)) ∧
  Forall (λ x, (rid x < issued s)%nat ∧ started x <= now s) (activeRequests s) ∧
  map LoadTest.url (results s) ++ map (λ x, item_url (item x)) (activeRequests s)
    ≡ₚ map item_url (take (issued s) requestQueue) ∧
  StronglySorted Z.le (map timestamp (results s)) ∧
  Forall (λ r, timestamp r <= now s) (results s) ∧
  Forall resultOk (results s) ∧
  (pc s = Returned → activeRequests s = []).

(** With a concurrency limit of 1: results and the request in flight, in
    this order, are the dispatched prefix of the queue. *)
Definition inOrder (requestQueue : list RequestQueueItem) (s : Sched) : Prop :=
  map LoadTest.url (results s) ++ map (λ x, item_url (item x)) (activeRequests s)
  = map item_url (take (issued s) requestQueue).

(** The locations of the shape [extractUrlsFromSitemap] processes: those
    of the sitemap index if there is one, else those of the urlset. *)
Definition processedLocs (result : ParsedSitemap) : list (list string) :=
  match sitemapIndex result with
  | Some index => map SitemapEntry_loc (sitemap index)
  | None =>
      match urlset result with
      | Some set => map SitemapUrl_loc (Sitemap.url set)
      | None => []
      end
  end.

(** The page locations among them: first elements that are not empty and
    do not end in [.xml]. *)
Definition pagesOf (locs : list (list string)) : list string :=
  flat_map
    (λ loc, match loc with
            | l :: _ =>
                if bool_decide (l = EmptyString) then []
                else if endsWith l ".xml" then [] else [l]
            | [] => []
            end) locs.

(** The first elements that are not empty and end in [.xml]. *)
Definition nestedOf (locs : list (list string)) : list string :=
  flat_map
    (λ loc, match loc with
            | l :: _ =>
                if bool_decide (l = EmptyString) then []
                else if endsWith l ".xml" then [l] else []
            | [] => []
            end) locs.

(** [u] is a location of some document the graph serves. *)
Definition mentioned (web : Web) (u : string) : Prop :=
  ∃ sitemapUrl data, web !! sitemapUrl = Some data ∧ u ∈ locations data.

(** What a call of [extractUrlsFromSitemap] on [sitemapUrl] that returns
    has done: it has returned a list; the URLs it fetched are the ones it
    added to the visited set; everything it returns is a location of a
    served document; the page locations of every document it fetched are
    in the list; and those of its own document come in document order. *)
Definition callPost (web : Web) (sitemapUrl : string) (st : Crawl)
    (c : completion Error (list string)) (st' : Crawl) : Prop :=
  ∃ new out,
    c = Normal out ∧
    fetched st' = fetched st ++ new ∧
    visitedSitemaps st' = visitedSitemaps st ∪ list_to_set new ∧
    Forall (mentioned web) out ∧
    (∀ u result p, u ∈ new → web !! u = Some (WellFormed result) →
                   p ∈ pagesOf (processedLocs result) → p ∈ out) ∧
    (sitemapUrl ∉ visitedSitemaps st →
     ∀ result, web !! sitemapUrl = Some (WellFormed result) →
               pagesOf (processedLocs result) `sublist_of` out).

(** The same for a loop over entries with locations [locs], entered with
    [urls] collected so far. *)
Definition loopPost (web : Web) (locs : list (list string)) (urls : list string)
    (st : Crawl) (c : completion Error (list string)) (st' : Crawl) : Prop :=
  ∃ new out,
    c = Normal (urls ++ out) ∧
    fetched st' = fetched st ++ new ∧
    visitedSitemaps st' = visitedSitemaps st ∪ list_to_set new ∧
    Forall (mentioned web) out ∧
    (∀ u result p, u ∈ new → web !! u = Some (WellFormed result) →
                   p ∈ pagesOf (processedLocs result) → p ∈ out) ∧
    pagesOf locs `sublist_of` out.

End Aux.

(** * Properties *)

(** ** Statistics aggregator *)

Module AggregatorProps.
Import JS LoadTest.

Lemma leb_ofZ (a b : Z) : leb (ofZ a) (ofZ b) = (a <=? b).
Proof.
  unfold leb, ofZ, Qle_bool, inject_Z; simpl.
  by rewrite !Z.mul_1_r.
Qed.

Lemma min2_ofZ (a b : Z) : min2 (ofZ a) (ofZ b) = ofZ (Z.min a b).
Proof.
  change (min2 (ofZ a) (ofZ b)) with (if leb (ofZ a) (ofZ b) then ofZ a else ofZ b).
  rewrite leb_ofZ.
  destruct (Z.leb_spec a b); f_equal; lia.
Qed.

Lemma max2_ofZ (a b : Z) : max2 (ofZ a) (ofZ b) = ofZ (Z.max a b).
Proof.
  change (max2 (ofZ a) (ofZ b)) with (if leb (ofZ a) (ofZ b) then ofZ b else ofZ a).
  rewrite leb_ofZ.
  destruct (Z.leb_spec a b); f_equal; lia.
Qed.

(** On a non-empty argument list of integers [Math.min] is the least
    element. *)
Lemma Math_min_ofZ (x : Z) (xs : list Z) :
  Math_min (map ofZ (x :: xs)) = ofZ (foldr Z.min x xs).
Proof.
  revert x; induction xs as [|y ys IH]; intros x; [done|].
  change (Math_min (map ofZ (x :: y :: ys)))
    with (min2 (ofZ x) (Math_min (map ofZ (y :: ys)))).
  rewrite IH, min2_ofZ. f_equal. simpl.
  clear IH. revert x y; induction ys as [|z zs IH]; intros x y; simpl; [lia|].
  specialize (IH x y). lia.
Qed.

Lemma Math_max_ofZ (x : Z) (xs : list Z) :
  Math_max (map ofZ (x :: xs)) = ofZ (foldr Z.max x xs).
Proof.
  revert x; induction xs as [|y ys IH]; intros x; [done|].
  change (Math_max (map ofZ (x :: y :: ys)))
    with (max2 (ofZ x) (Math_max (map ofZ (y :: ys)))).
  rewrite IH, max2_ofZ. f_equal. simpl.
  clear IH. revert x y; induction ys as [|z zs IH]; intros x y; simpl; [lia|].
  specialize (IH x y). lia.
Qed.

(** [z || 0] is [z] on an integer. *)
Lemma or_else_ofZ (z : Z) : or_else (ofZ z) zero = ofZ z.
Proof.
  unfold or_else, truthy, ofZ, zero.
  destruct (Qeq_bool (inject_Z z) 0) eqn:E; [|done].
  apply Qeq_bool_eq in E. unfold Qeq, inject_Z in E; simpl in E.
  replace z with 0 by lia. done.
Qed.

(** The least element bounds every element and is one of them. *)
Lemma foldr_min_spec (x : Z) (xs : list Z) :
  foldr Z.min x xs ∈ x :: xs ∧ Forall (λ y, foldr Z.min x xs <= y) (x :: xs).
Proof.
  induction xs as [|y ys [IHin IHle]]; simpl.
  - split; [by apply list_elem_of_singleton|]. repeat constructor; lia.
  - apply Forall_cons in IHle as [Hx Hys].
    split.
    + destruct (Z.min_spec y (foldr Z.min x ys)) as [[_ E]|[_ E]]; rewrite E;
        rewrite !elem_of_cons in *; tauto.
    + repeat constructor; [lia..|].
      eapply Forall_impl; [exact Hys|]. simpl; intros; lia.
Qed.

Lemma foldr_max_spec (x : Z) (xs : list Z) :
  foldr Z.max x xs ∈ x :: xs ∧ Forall (λ y, y <= foldr Z.max x xs) (x :: xs).
Proof.
  induction xs as [|y ys [IHin IHle]]; simpl.
  - split; [by apply list_elem_of_singleton|]. repeat constructor; lia.
  - apply Forall_cons in IHle as [Hx Hys].
    split.
    + destruct (Z.max_spec y (foldr Z.max x ys)) as [[_ E]|[_ E]]; rewrite E;
        rewrite !elem_of_cons in *; tauto.
    + repeat constructor; [lia..|].
      eapply Forall_impl; [exact Hys|]. simpl; intros; lia.
Qed.

Lemma summary_extrema (r : LoadTestResult) (rs : list LoadTestResult) (d : number) :
  minResponseTime (calculateLoadTestSummary (r :: rs) d)
    = ofZ (foldr Z.min (responseTime r) (map responseTime rs)) ∧
  maxResponseTime (calculateLoadTestSummary (r :: rs) d)
    = ofZ (foldr Z.max (responseTime r) (map responseTime rs)).
Proof.
  unfold calculateLoadTestSummary, minResponseTime, maxResponseTime.
  change (map responseTime (r :: rs)) with (responseTime r :: map responseTime rs).
  by rewrite Math_min_ofZ, Math_max_ofZ, !or_else_ofZ.
Qed.

(** On a non-empty result collection the two fields are the extrema of
    the response times. *)
Lemma extrema_nonempty (r : LoadTestResult) (rs : list LoadTestResult) (d : number) :
  let times := map responseTime (r :: rs) in
  ∃ lo hi : Z,
    minResponseTime (calculateLoadTestSummary (r :: rs) d) = ofZ lo ∧
    maxResponseTime (calculateLoadTestSummary (r :: rs) d) = ofZ hi ∧
    lo ∈ times ∧ hi ∈ times ∧
    Forall (λ t, lo <= t <= hi) times.
Proof.
  intros times.
  exists (foldr Z.min (responseTime r) (map responseTime rs)),
         (foldr Z.max (responseTime r) (map responseTime rs)).
  destruct (foldr_min_spec (responseTime r) (map responseTime rs)) as [Hlo Hle].
  destruct (foldr_max_spec (responseTime r) (map responseTime rs)) as [Hhi Hge].
  destruct (summary_extrema r rs d) as [-> ->].
  repeat split; try done.
  rewrite Forall_forall in Hle, Hge. apply Forall_forall; intros t Ht.
  split; [by apply Hle | by apply Hge].
Qed.

(** C1.  For a non-empty result collection [minResponseTime] and
    [maxResponseTime] are the least and the greatest response time; for
    the empty collection [Math.min()] is [Infinity] and [Math.max()] is
    [-Infinity], both truthy, so the [|| 0] guard does not fire and the
    summary carries [Infinity] and [-Infinity], not [0]. *)
Theorem extrema_of_summary :
  (∀ r rs d,
     minResponseTime (calculateLoadTestSummary (r :: rs) d)
       = ofZ (foldr Z.min (responseTime r) (map responseTime rs)) ∧
     maxResponseTime (calculateLoadTestSummary (r :: rs) d)
       = ofZ (foldr Z.max (responseTime r) (map responseTime rs))) ∧
  (∀ d,
     minResponseTime (calculateLoadTestSummary [] d) = PosInf ∧
     maxResponseTime (calculateLoadTestSummary [] d) = NegInf ∧
     PosInf ≠ zero ∧ NegInf ≠ zero).
Proof.
  split.
  - intros r rs d. apply summary_extrema.
  - intros d. repeat split; done.
Qed.

(** For a non-zero elapsed time the throughput is the quotient. *)
Lemma requestsPerSecond_quotient (results : list LoadTestResult) (q : Q) :
  ¬ (q == 0)%Q →
  ∃ x : Q,
    requestsPerSecond (calculateLoadTestSummary results (Fin q)) = Fin x ∧
    (x == inject_Z (Z.of_nat (length results)) / q)%Q.
Proof.
  intros Hq.
  unfold calculateLoadTestSummary, requestsPerSecond, div, ofNat, ofZ.
  destruct (Qeq_bool q 0) eqn:E; [by apply Qeq_bool_eq in E|].
  unfold or_else, truthy.
  destruct (Qeq_bool (inject_Z (Z.of_nat (length results)) / q) 0) eqn:E'; simpl.
  - exists 0%Q. split; [done|]. apply Qeq_bool_eq in E'. by rewrite E'.
  - eexists; split; [done|]. reflexivity.
Qed.

Lemma requestsPerSecond_quotient_witness :
  ∃ x : Q,
    requestsPerSecond
      (calculateLoadTestSummary
         [{| url := "a"; success := true; statusCode := Some 200; responseTime := 7;
             error := None; timestamp := 7 |}] (Fin (1 # 2))) = Fin x ∧
    (x == 2)%Q.
Proof.
  destruct (requestsPerSecond_quotient
         [{| url := "a"; success := true; statusCode := Some 200; responseTime := 7;
             error := None; timestamp := 7 |}] (1 # 2)) as [x [Hx Hq]].
  - by intros H.
  - exists x. split; [exact Hx|]. rewrite Hq. reflexivity.
Defined.

(** C2.  With an elapsed time of [0] and at least one result, the
    quotient is [Infinity], which is truthy: the [|| 0] guard does not
    fire and [requestsPerSecond] is [Infinity], not [0].  Only the empty
    collection, where the quotient is [NaN], gives [0]. *)
Theorem requestsPerSecond_zero_elapsed :
  (∀ r rs, requestsPerSecond (calculateLoadTestSummary (r :: rs) (Fin 0)) = PosInf) ∧
  requestsPerSecond (calculateLoadTestSummary [] (Fin 0)) = zero ∧
  PosInf ≠ zero.
Proof.
  repeat split; try done.
Qed.

(** C10.  [totalRequests] is the number of results, and it is
    [successfulRequests + failedRequests]: every result counts once, in
    [successfulRequests] when its [success] flag is [true] and in
    [failedRequests] when it is [false]. *)
Theorem total_is_successful_plus_failed (results : list LoadTestResult) (d : number) :
  let s := calculateLoadTestSummary results d in
  totalRequests s = length results ∧
  totalRequests s = (successfulRequests s + failedRequests s)%nat ∧
  successfulRequests s
  = sum_list (map (λ r, if success r then 1%nat else 0%nat) results) ∧
  failedRequests s
  = sum_list (map (λ r, if success r then 0%nat else 1%nat) results).
Proof.
  simpl. split; [done|].
  induction results as [|r rs (IH & IHs & IHf)]; [done|].
  rewrite !filter_cons. simpl map. simpl sum_list.
  destruct (success r) eqn:E.
  - rewrite decide_True by done. rewrite decide_False by done. simpl. lia.
  - rewrite decide_False by done. rewrite decide_True by done. simpl. lia.
Qed.

End AggregatorProps.

(** ** Load-test scheduler *)

Module SchedulerProps.
Import JS LoadTest.

(** *** The request queue *)

Lemma pushAll_app (i : nat) (urls : list string) (q : list RequestQueueItem) :
  pushAll i urls q = q ++ map (λ u, {| item_url := u; item_index := i |}) urls.
Proof.
  unfold pushAll. revert q; induction urls as [|u us IH]; intros q; simpl.
  - by rewrite app_nil_r.
  - rewrite IH. by rewrite <- app_assoc.
Qed.

Lemma passes_app (urls : list string) (passes : list nat) (q : list RequestQueueItem) :
  foldl (λ q i, pushAll i urls q) q passes
  = q ++ flat_map (λ i, map (λ u, {| item_url := u; item_index := i |}) urls) passes.
Proof.
  revert q; induction passes as [|i ps IH]; intros q; simpl.
  - by rewrite app_nil_r.
  - rewrite IH, pushAll_app. by rewrite <- app_assoc.
Qed.

Lemma buildQueue_spec (urls : list string) (n : Z) :
  buildQueue urls n = spec_requestQueue urls (Z.to_nat n).
Proof. unfold buildQueue. by rewrite passes_app. Qed.

Lemma spec_requestQueue_length (urls : list string) (n : nat) :
  length (spec_requestQueue urls n) = (n * length urls)%nat.
Proof.
  unfold spec_requestQueue. generalize 0%nat as start.
  induction n as [|n IH]; intros start; simpl; [done|].
  by rewrite length_app, length_map, IH.
Qed.

Lemma buildQueue_length (urls : list string) (n : Z) :
  0 <= n → Z.of_nat (length (buildQueue urls n)) = Z.of_nat (length urls) * n.
Proof.
  intros Hn. rewrite buildQueue_spec, spec_requestQueue_length. lia.
Qed.

(** The element at position [i * k + j] of the queue is the [j]-th URL
    with repetition index [i]. *)
Lemma spec_requestQueue_lookup (urls : list string) (n i j : nat) (u : string) :
  (i < n)%nat → urls !! j = Some u →
  spec_requestQueue urls n !! (i * length urls + j)%nat
  = Some {| item_url := u; item_index := i |}.
Proof.
  unfold spec_requestQueue. intros Hi Hj.
  assert (Hgen : ∀ m start, (i < m)%nat →
    flat_map (λ i, map (λ u, {| item_url := u; item_index := i |}) urls) (seq start m)
      !! (i * length urls + j)%nat
    = Some {| item_url := u; item_index := (start + i)%nat |}).
  { clear Hi n. induction i as [|i IH]; intros m start Hm.
    - destruct m as [|m]; [lia|]. simpl.
      rewrite lookup_app_l by (rewrite length_map; by eapply lookup_lt_Some).
      rewrite list_lookup_fmap, Hj. simpl. do 2 f_equal. lia.
    - destruct m as [|m]; [lia|]. simpl.
      rewrite lookup_app_r by (rewrite length_map; lia).
      rewrite length_map.
      replace (length urls + i * length urls + j - length urls)%nat
        with (i * length urls + j)%nat by lia.
      rewrite IH by lia. do 2 f_equal. lia. }
  by rewrite (Hgen n 0%nat Hi).
Qed.

(** *** Steps and invariant *)

Lemma earliest_elem (l : list InFlight) (r : InFlight) :
  earliest l = Some r → r ∈ l.
Proof.
  revert r; induction l as [|x l IH]; intros r; simpl; [done|].
  destruct (earliest l) as [r'|].
  - destruct (finishes x <=? finishes r'); intros [= <-].
    + apply list_elem_of_here.
    + apply list_elem_of_further. by apply IH.
  - intros [= <-]. apply list_elem_of_here.
Qed.

Lemma earliest_None (l : list InFlight) : earliest l = None → l = [].
Proof.
  destruct l as [|x l]; simpl; [done|].
  destruct (earliest l) as [r'|]; [|done].
  by destruct (finishes x <=? finishes r').
Qed.

Lemma removeRequest_length (l : list InFlight) (r : InFlight) :
  r ∈ l → S (length (removeRequest (rid r) l)) = length l.
Proof.
  induction l as [|x l IH]; simpl; [by intros ?%elem_of_nil|].
  intros Hin. case_bool_decide as Hx; [done|].
  apply elem_of_cons in Hin as [->|Hin]; [done|].
  simpl. by rewrite IH.
Qed.

Lemma nonempty_length {A} (l : list A) : length l ≠ 0%nat → l ≠ [].
Proof. by intros H ->. Qed.

(** Closes the conjuncts of [inv] once the successor state is explicit. *)
Ltac inv_close :=
  simpl in *; rewrite ?length_app in *; simpl in *;
  lazymatch goal with
  | |- _ ∧ _ => split; inv_close
  | |- _ ∨ _ → _ => intros [?|?]; inv_close
  | |- _ ≠ [] => first [ done | apply nonempty_length; lia ]
  | |- _ → _ => intros ?; inv_close
  | |- _ =>
      first [ discriminate | done | lia | tauto
            | right; by eauto | by eauto ]
  end.

Section Run.
Context (w : World) (c : Z) (d : option Z) (t0 : Z) (q : list RequestQueueItem).
Hypothesis c_pos : 0 < c.

Lemma inv_initial : inv c d t0 q (initial q t0).
Proof. unfold inv, initial. inv_close. Qed.

Lemma inv_step (s s' : Sched) :
  inv c d t0 q s → step w c d t0 s = Some s' → inv c d t0 q s'.
Proof.
  unfold inv, step.
  intros (Hcap & Hrace & Hres & Hiss & Hq & Hret & Hbrk).
  destruct s as [p pend act res made t iss]; simpl in *.
  destruct p; simpl.
  - (* LoopTop *)
    destruct pend as [|it rest]; simpl.
    + intros [= <-]. inv_close.
    + destruct (durationReached d t0 t) eqn:Hd.
      * intros [= <-]. inv_close.
      * destruct (Z.leb_spec c (Z.of_nat (length act))) as [Hfull|Hfree].
        -- intros [= <-]. inv_close.
        -- intros [= <-]; unfold dispatch. inv_close.
  - (* AwaitRace *)
    destruct (earliest act) as [r|] eqn:He; [|done].
    intros [= <-].
    pose proof (removeRequest_length act r (earliest_elem _ _ He)) as Hlen.
    destruct (Hrace eq_refl) as [_ Hpend]. inv_close.
  - (* Resumed *)
    destruct (Hres eq_refl) as [Hfree Hpend].
    intros [= <-]; unfold dispatch.
    destruct pend as [|it rest]; [done|]. inv_close.
  - (* AwaitAll *)
    destruct (earliest act) as [r|] eqn:He.
    + intros [= <-].
      pose proof (removeRequest_length act r (earliest_elem _ _ He)) as Hlen.
      inv_close.
    + apply earliest_None in He as ->.
      intros [= <-]. inv_close.
  - done.
Qed.

Lemma step_progress (s : Sched) :
  inv c d t0 q s → pc s ≠ Returned → is_Some (step w c d t0 s).
Proof.
  unfold inv, step.
  intros (Hcap & Hrace & Hres & Hiss & Hq & Hret & Hbrk) Hpc.
  destruct (pc s) eqn:Epc; try done; try by eexists.
  - destruct (pending s); [by eexists|].
    destruct (durationReached d t0 (now s)); [by eexists|].
    destruct (c <=? Z.of_nat (length (activeRequests s))); by eexists.
  - destruct (earliest (activeRequests s)) eqn:He; [by eexists|].
    apply earliest_None in He. by destruct (Hrace eq_refl).
  - destruct (earliest (activeRequests s)); by eexists.
Qed.

Lemma step_measure (s s' : Sched) :
  inv c d t0 q s → step w c d t0 s = Some s' → (measure s' < measure s)%nat.
Proof.
  unfold inv, step, measure.
  intros (Hcap & Hrace & Hres & Hiss & Hq & Hret & Hbrk).
  destruct s as [p pend act res made t iss]; simpl in *.
  destruct p; simpl.
  - destruct pend as [|it rest]; simpl.
    + intros [= <-]; simpl. lia.
    + destruct (durationReached d t0 t).
      * intros [= <-]; simpl. lia.
      * destruct (c <=? Z.of_nat (length act)).
        -- intros [= <-]; simpl. lia.
        -- intros [= <-]; unfold dispatch; simpl. rewrite length_app; simpl. lia.
  - destruct (earliest act) as [r|] eqn:He; [|done].
    intros [= <-]; simpl.
    pose proof (removeRequest_length act r (earliest_elem _ _ He)). lia.
  - destruct (Hres eq_refl) as [_ Hpend].
    intros [= <-]; unfold dispatch; simpl.
    destruct pend as [|it rest]; [done|]; simpl. rewrite length_app; simpl. lia.
  - destruct (earliest act) as [r|] eqn:He.
    + intros [= <-]; simpl.
      pose proof (removeRequest_length act r (earliest_elem _ _ He)). lia.
    + intros [= <-]; simpl. lia.
  - done.
Qed.

Lemma steps_snoc (n : nat) (s : Sched) :
  steps w c d t0 (S n) s
  = match step w c d t0 (steps w c d t0 n s) with
    | Some s' => s'
    | None => steps w c d t0 n s
    end.
Proof.
  revert s; induction n as [|n IH]; intros s.
  - simpl. by destruct (step w c d t0 s).
  - change (steps w c d t0 (S (S n)) s)
      with (match step w c d t0 s with
            | Some s' => steps w c d t0 (S n) s'
            | None => s
            end).
    destruct (step w c d t0 s) as [s1|] eqn:E.
    + rewrite IH. simpl. by rewrite E.
    + simpl. by rewrite !E.
Qed.

Lemma steps_add (a b : nat) (s : Sched) :
  steps w c d t0 (a + b) s = steps w c d t0 b (steps w c d t0 a s).
Proof.
  revert s; induction a as [|a IH]; intros s; [done|].
  simpl. destruct (step w c d t0 s) as [s1|] eqn:E; [apply IH|].
  destruct b; simpl; by rewrite ?E.
Qed.

Lemma inv_steps (n : nat) (s : Sched) :
  inv c d t0 q s → inv c d t0 q (steps w c d t0 n s).
Proof.
  revert s; induction n as [|n IH]; intros s Hs; [done|].
  simpl. destruct (step w c d t0 s) as [s1|] eqn:E; [|done].
  apply IH. by eapply inv_step.
Qed.

(** Every run returns, within [measure] steps. *)
Lemma steps_return (n : nat) (s : Sched) :
  inv c d t0 q s → (measure s <= n)%nat → pc (steps w c d t0 n s) = Returned.
Proof.
  revert s; induction n as [|n IH]; intros s Hs Hm.
  - simpl. destruct (pc s) eqn:E; unfold measure in Hm; rewrite E in Hm; try lia. done.
  - destruct (decide (pc s = Returned)) as [Hr|Hr].
    { simpl. unfold step. by rewrite Hr. }
    destruct (step_progress s Hs Hr) as [s1 E].
    simpl. rewrite E. apply IH; [by eapply inv_step|].
    pose proof (step_measure s s1 Hs E). lia.
Qed.

Lemma steps_returned (n : nat) (s : Sched) :
  pc s = Returned → steps w c d t0 n s = s.
Proof.
  intros Hr. destruct n; [done|]. simpl. unfold step. by rewrite Hr.
Qed.

(** A run has one final state. *)
Lemma steps_final (a b : nat) (s : Sched) :
  pc (steps w c d t0 a s) = Returned → pc (steps w c d t0 b s) = Returned →
  steps w c d t0 a s = steps w c d t0 b s.
Proof.
  intros Ha Hb.
  rewrite <- (steps_returned b _ Ha), <- steps_add.
  rewrite <- (steps_returned a (steps w c d t0 b s) Hb), <- steps_add.
  f_equal. lia.
Qed.

(** Once the loop is left nothing is dispatched any more. *)
Lemma drain (n : nat) (s : Sched) :
  pc s = AwaitAll ∨ pc s = Returned →
  issued (steps w c d t0 n s) = issued s ∧
  pending (steps w c d t0 n s) = pending s.
Proof.
  revert s; induction n as [|n IH]; intros s Hpc; [done|].
  simpl. unfold step.
  destruct Hpc as [Hpc|Hpc]; rewrite Hpc; [|done].
  destruct (earliest (activeRequests s)) as [r|].
  - destruct (IH (complete w r s)) as [-> ->]; [by left|]. done.
  - destruct (IH (setPc Returned s)) as [-> ->]; [by right|]. done.
Qed.

(** A loop-top check that finds the cap reached: the final state of the
    run has dispatched nothing more. *)
Lemma cap_final (k m : nat) (init : Sched) :
  inv c d t0 q (steps w c d t0 k init) →
  pc (steps w c d t0 k init) = LoopTop →
  pending (steps w c d t0 k init) ≠ [] →
  durationReached d t0 (now (steps w c d t0 k init)) = true →
  pc (steps w c d t0 m init) = Returned →
  issued (steps w c d t0 m init) = issued (steps w c d t0 k init) ∧
  pending (steps w c d t0 m init) = pending (steps w c d t0 k init).
Proof.
  set (s := steps w c d t0 k init). intros Hinv Hpc Hpend Hd Hret.
  assert (Hstep : step w c d t0 s = Some (setPc AwaitAll s)).
  { unfold step. rewrite Hpc, Hd. by destruct (pending s). }
  set (j := measure (setPc AwaitAll s)).
  assert (Hret' : pc (steps w c d t0 j (setPc AwaitAll s)) = Returned).
  { apply steps_return; [|done]. by eapply inv_step. }
  destruct (drain j (setPc AwaitAll s)) as [Hi Hp]; [by left|].
  assert (Hsame : steps w c d t0 m init = steps w c d t0 j (setPc AwaitAll s)).
  { transitivity (steps w c d t0 (k + S j) init).
    - apply steps_final; [done|]. rewrite steps_add. fold s. simpl. by rewrite Hstep.
    - rewrite steps_add. fold s. simpl. by rewrite Hstep. }
  rewrite Hsame. by split.
Qed.

End Run.

(** *** The claims about the scheduler *)

Lemma reachable_inv (w : World) (t0 : Z) (urls : list string) (options : Options)
    (s : Sched) :
  0 < orDefault (opt_concurrency options) 10 →
  reachable w t0 urls options s →
  inv (orDefault (opt_concurrency options) 10) (opt_duration options) t0
      (buildQueue urls (orDefault (opt_requestsPerUrl options) 1)) s.
Proof.
  intros Hc [n ->]. apply inv_steps; [done|]. apply inv_initial; done.
Qed.

(** What [runLoadTest] returns, in terms of the final state of the run. *)
Lemma runLoadTest_returns (w : World) (t0 : Z) (urls : list string) (options : Options) :
  0 < orDefault (opt_concurrency options) 10 →
  ∃ final,
    reachable w t0 urls options final ∧
    pc final = Returned ∧
    runLoadTest w t0 urls options
    = Some (results final,
            calculateLoadTestSummary (results final)
              (div (ofZ (now final - t0)) (ofZ 1000))).
Proof.
  intros Hc. eexists. split; [by eexists|].
  assert (Hret : pc (steps w (orDefault (opt_concurrency options) 10) (opt_duration options)
                       t0 (enough (buildQueue urls (orDefault (opt_requestsPerUrl options) 1)))
                       (initial (buildQueue urls (orDefault (opt_requestsPerUrl options) 1)) t0))
                 = Returned).
  { eapply steps_return; [done|by apply inv_initial|].
    unfold measure, enough, initial; simpl. lia. }
  split; [done|].
  unfold runLoadTest. by rewrite Hret.
Qed.

(** C3.  With [requestsPerUrl = n] and a positive concurrency limit, the
    queue handed to the scheduler is, before anything is dispatched, the
    cross-product of the [k] URLs and the repetition indices [0, n), pass
    after pass with the URLs in order inside each pass; it has [k × n]
    elements; and without a duration cap [runLoadTest] returns exactly
    [n × k] results. *)
Theorem queue_and_result_count (w : World) (t0 : Z) (urls : list string)
    (options : Options) :
  let n := orDefault (opt_requestsPerUrl options) 1 in
  let c := orDefault (opt_concurrency options) 10 in
  0 < n → 0 < c →
  buildQueue urls n = spec_requestQueue urls (Z.to_nat n) ∧
  pending (initial (buildQueue urls n) t0) = spec_requestQueue urls (Z.to_nat n) ∧
  issued (initial (buildQueue urls n) t0) = 0%nat ∧
  Z.of_nat (length (buildQueue urls n)) = Z.of_nat (length urls) * n ∧
  (opt_duration options = None →
   ∃ rs summary,
     runLoadTest w t0 urls options = Some (rs, summary) ∧
     Z.of_nat (length rs) = n * Z.of_nat (length urls)).
Proof.
  intros n c Hn Hc.
  split; [apply buildQueue_spec|].
  split; [apply buildQueue_spec|].
  split; [done|].
  split; [apply buildQueue_length; lia|].
  intros Hd.
  destruct (runLoadTest_returns w t0 urls options Hc) as (final & Hreach & Hret & Hrun).
  do 2 eexists. split; [exact Hrun|].
  pose proof (reachable_inv w t0 urls options final Hc Hreach)
    as (_ & _ & _ & Hiss & Hq & Hact & Hbrk).
  rewrite (Hact Hret) in Hiss; simpl in Hiss.
  destruct Hbrk as [Hpend|[t Ht]]; [by right| |by rewrite Hd in Ht].
  rewrite Hpend in Hq; simpl in Hq.
  pose proof (buildQueue_length urls n ltac:(lia)) as Hlen.
  fold n in Hq. lia.
Qed.

Lemma queue_and_result_count_witness :
  0 < 3 ∧ 0 < 2 ∧
  ∃ rs summary,
    runLoadTest (steadyWorld 40) 0 ["a"; "b"] (mkOptions 2 3 None) = Some (rs, summary) ∧
    Z.of_nat (length rs) = 3 * 2.
Proof.
  split; [lia|]. split; [lia|].
  destruct (queue_and_result_count (steadyWorld 40) 0 ["a"; "b"] (mkOptions 2 3 None))
    as (_ & _ & _ & _ & H); [simpl; lia|simpl; lia|].
  apply H. reflexivity.
Defined.

(** C7.  In every state of a run with concurrency limit [c] at most [c]
    requests are in flight; and from a state with [c] requests in flight
    the next step dispatches nothing: it leaves the working set as it is
    or takes a completed request out of it. *)
Theorem outstanding_bounded (w : World) (t0 : Z) (urls : list string)
    (options : Options) (s : Sched) :
  let c := orDefault (opt_concurrency options) 10 in
  0 < c →
  reachable w t0 urls options s →
  Z.of_nat (length (activeRequests s)) <= c ∧
  ∀ s', step w c (opt_duration options) t0 s = Some s' →
        Z.of_nat (length (activeRequests s)) = c →
        issued s' = issued s ∧ pending s' = pending s ∧
        (length (activeRequests s') <= length (activeRequests s))%nat.
Proof.
  intros c Hc Hreach.
  pose proof (reachable_inv w t0 urls options s Hc Hreach)
    as (Hcap & Hrace & Hres & _).
  split; [exact Hcap|].
  intros s' Hstep Hfull. unfold step in Hstep.
  destruct (pc s) eqn:Epc.
  - destruct (pending s) eqn:Ep; [by injection Hstep as <-|].
    destruct (durationReached _ _ _); [by injection Hstep as <-|].
    fold c in Hstep.
    destruct (Z.leb_spec c (Z.of_nat (length (activeRequests s)))); [|lia].
    by injection Hstep as <-.
  - destruct (earliest (activeRequests s)) as [r|] eqn:He; [|done].
    injection Hstep as <-; simpl.
    pose proof (removeRequest_length _ r (earliest_elem _ _ He)). repeat split; lia.
  - destruct (Hres eq_refl) as [Hlt _]. fold c in Hlt. lia.
  - destruct (earliest (activeRequests s)) as [r|] eqn:He.
    + injection Hstep as <-; simpl.
      pose proof (removeRequest_length _ r (earliest_elem _ _ He)). repeat split; lia.
    + by injection Hstep as <-.
  - done.
Qed.

Lemma outstanding_bounded_witness :
  0 < 2 ∧
  Z.of_nat (length (activeRequests (sampleRun (steadyWorld 40) 2 None ["a"; "b"; "c"] 2))) = 2 ∧
  step (steadyWorld 40) 2 None 0 (sampleRun (steadyWorld 40) 2 None ["a"; "b"; "c"] 2)
  = Some (sampleRun (steadyWorld 40) 2 None ["a"; "b"; "c"] 3) ∧
  issued (sampleRun (steadyWorld 40) 2 None ["a"; "b"; "c"] 3)
  = issued (sampleRun (steadyWorld 40) 2 None ["a"; "b"; "c"] 2).
Proof.
  split; [lia|]. split; [reflexivity|]. split; [reflexivity|].
  destruct (outstanding_bounded (steadyWorld 40) 0 ["a"; "b"; "c"] (mkOptions 2 1 None)
              (sampleRun (steadyWorld 40) 2 None ["a"; "b"; "c"] 2))
    as [_ H]; [simpl; lia|by exists 2%nat|].
  by destruct (H (sampleRun (steadyWorld 40) 2 None ["a"; "b"; "c"] 3) eq_refl eq_refl)
    as (-> & _).
Defined.

(** The duration is checked before the wait for a free slot and not
    after it: with concurrency 1, answers after 10 s and a cap of 5 s, the
    second request is dispatched at 10 s, when the cap has long elapsed. *)
Example dispatch_after_wait :
  map started (activeRequests (sampleRun (steadyWorld 10000) 1 (Some 5) ["a"; "b"; "c"] 4))
  = [10000] ∧
  durationReached (Some 5) 0 10000 = true.
Proof. by vm_compute. Qed.

(** C8, where the claim fails: two URLs, concurrency 2, every answer after
    10 s, cap 5 s.  Both requests are dispatched at time 0, so the cap
    (5 s) is below the time needed to drain the queue (10 s), and still
    the run returns the full [n × k = 2] results. *)
Lemma cap_below_drain_time_counterexample :
  ¬ spec_cap_below_drain_time (steadyWorld 10000) 0 ["a"; "b"] (mkOptions 2 1 (Some 5)).
Proof.
  intros H.
  destruct (H 5 eq_refl ltac:(lia) ltac:(by vm_compute)) as (rs & summary & Hrun & Hlt).
  vm_compute in Hrun. injection Hrun as <- _. simpl in Hlt. lia.
Qed.

(** C8, amended.  When the check at the top of a loop iteration finds the
    elapsed time at or above a (non-zero) cap, nothing is dispatched from
    then on: the requests in flight at that moment drain, [runLoadTest]
    returns after they complete, and its results are those of the items
    dispatched before the check, fewer than [n × k]. *)
Theorem cap_stops_dispatch (w : World) (t0 : Z) (urls : list string)
    (options : Options) (s : Sched) :
  let n := orDefault (opt_requestsPerUrl options) 1 in
  let c := orDefault (opt_concurrency options) 10 in
  0 < c →
  reachable w t0 urls options s →
  pc s = LoopTop → pending s ≠ [] →
  durationReached (opt_duration options) t0 (now s) = true →
  ∃ final rs summary,
    reachable w t0 urls options final ∧ pc final = Returned ∧
    activeRequests final = [] ∧
    issued final = issued s ∧ pending final = pending s ∧
    runLoadTest w t0 urls options = Some (rs, summary) ∧
    rs = results final ∧
    length rs = (length (results s) + length (activeRequests s))%nat ∧
    Z.of_nat (length rs) < n * Z.of_nat (length urls).
Proof.
  intros n c Hc Hreach Hpc Hpend Hd. subst n c.
  destruct (runLoadTest_returns w t0 urls options Hc) as (final & Hfreach & Hret & Hrun).
  pose proof (reachable_inv w t0 urls options s Hc Hreach) as Hinv.
  pose proof Hinv as (_ & _ & _ & Hiss & Hq & _ & _).
  pose proof (reachable_inv w t0 urls options final Hc Hfreach)
    as (_ & _ & _ & Hfiss & Hfq & Hfact & _).
  specialize (Hfact Hret). rewrite Hfact in Hfiss; simpl in Hfiss.
  assert (Hsame : issued final = issued s ∧ pending final = pending s).
  { destruct Hreach as [k ->]. destruct Hfreach as [k' ->].
    by eapply cap_final. }
  destruct Hsame as [Hi Hp].
  exists final. do 2 eexists.
  repeat (split; [done|]).
  split; [lia|].
  destruct (pending s) as [|it rest] eqn:Ep; [done|]. simpl in Hq.
  destruct (Z.le_gt_cases 0 (orDefault (opt_requestsPerUrl options) 1)) as [Hn|Hn].
  - pose proof (buildQueue_length urls _ Hn). lia.
  - exfalso. rewrite buildQueue_spec in Hq.
    replace (Z.to_nat (orDefault (opt_requestsPerUrl options) 1)) with 0%nat in Hq by lia.
    simpl in Hq. lia.
Qed.

Lemma cap_stops_dispatch_witness :
  0 < 1 ∧
  pc (sampleRun (steadyWorld 10000) 1 (Some 5) ["a"; "b"; "c"] 4) = LoopTop ∧
  pending (sampleRun (steadyWorld 10000) 1 (Some 5) ["a"; "b"; "c"] 4) ≠ [] ∧
  durationReached (Some 5) 0 (now (sampleRun (steadyWorld 10000) 1 (Some 5) ["a"; "b"; "c"] 4))
  = true ∧
  ∃ rs summary,
    runLoadTest (steadyWorld 10000) 0 ["a"; "b"; "c"] (mkOptions 1 1 (Some 5))
      = Some (rs, summary) ∧
    Z.of_nat (length rs) < 1 * 3.
Proof.
  split; [lia|]. split; [reflexivity|]. split; [done|]. split; [reflexivity|].
  destruct (cap_stops_dispatch (steadyWorld 10000) 0 ["a"; "b"; "c"]
              (mkOptions 1 1 (Some 5))
              (sampleRun (steadyWorld 10000) 1 (Some 5) ["a"; "b"; "c"] 4))
    as (final & rs & summary & _ & _ & _ & _ & _ & Hrun & _ & _ & Hlt);
    [simpl; lia|by exists 4%nat|reflexivity|done|reflexivity|].
  exists rs, summary. split; [exact Hrun|exact Hlt].
Defined.

End SchedulerProps.

(** ** Reachability probe *)

Module ProbeProps.
Import JS Sitemap.

(** C9.  [checkPageExist] returns [false] when the HEAD request is
    answered 404, [true] when it is answered with a status the transport
    library accepts (2xx), and throws the library's error unchanged for
    every other status and for a transport failure; in general it returns
    [true] for any resolved probe and re-throws any error that is not an
    axios error with response status 404. *)
Theorem checkPageExist_classifies :
  (∀ t : Transport,
     checkPageExist (axios_head t)
     = match t with
       | Answered status =>
           if bool_decide (status = 404) then Normal false
           else if (200 <=? status) && (status <? 300) then Normal true
           else Throw {| isAxiosError := true; response_status := Some status;
                         message := "Request failed" |}
       | Broken reason =>
           Throw {| isAxiosError := true; response_status := None; message := reason |}
       end) ∧
  (∀ status : Z, checkPageExist (Normal status) = Normal true) ∧
  (∀ e : Error,
     checkPageExist (Throw e) = if isNotFound e then Normal false else Throw e).
Proof.
  split; [|split].
  - intros [status|reason]; [|done].
    unfold checkPageExist, axios_head, try_catch, isNotFound.
    case_bool_decide as H404.
    + subst. done.
    + destruct ((200 <=? status) && (status <? 300)) eqn:E; [done|].
      simpl. rewrite bool_decide_eq_false_2; [done|]. congruence.
  - done.
  - intros e. unfold checkPageExist, try_catch. done.
Qed.

End ProbeProps.

(** ** Sitemap resolver *)

Module ResolverProps.
Import JS Sitemap.

(** *** The two loops follow one rule *)

Lemma forUrlEntries_forSitemaps (self : string → M (list string))
    (urlEntries : list SitemapUrl) (urls : list string) (st : Crawl) :
  forUrlEntries self urlEntries urls st
  = forSitemaps self (map asSitemapEntry urlEntries) urls st.
Proof.
  revert urls st; induction urlEntries as [|e es IH]; intros urls st; [done|].
  simpl. destruct (SitemapUrl_loc e) as [|l ?]; [apply IH|].
  case_bool_decide; [apply IH|].
  destruct (endsWith l ".xml"); [|apply IH].
  unfold mbind, M_bind, bind.
  destruct (self l st) as [[[childUrls|err] st']|]; [apply IH|done|done].
Qed.

(** *** States that come after one another *)

Lemma extends_refl (st : Crawl) : extends st st.
Proof.
  split; [done|]. exists []. rewrite app_nil_r.
  repeat split; [constructor|constructor].
Qed.

Lemma extends_trans (st1 st2 st3 : Crawl) :
  extends st1 st2 → extends st2 st3 → extends st1 st3.
Proof.
  intros (Hsub1 & new1 & Hf1 & Hnd1 & Hall1) (Hsub2 & new2 & Hf2 & Hnd2 & Hall2).
  split; [set_solver|].
  exists (new1 ++ new2). rewrite Hf2, Hf1, app_assoc. split; [done|].
  rewrite Forall_forall in Hall1, Hall2.
  split.
  - apply NoDup_app. repeat split; [done| |done].
    intros u Hu1 Hu2. destruct (Hall1 u Hu1) as [Hin _]. destruct (Hall2 u Hu2) as [_ Hnot].
    done.
  - apply Forall_app. split; apply Forall_forall; intros u Hu.
    + destruct (Hall1 u Hu). split; [set_solver|done].
    + destruct (Hall2 u Hu). split; [done|set_solver].
Qed.

Lemma extends_size (U : gset string) (st st' : Crawl) :
  extends st st' →
  (size (U ∖ visitedSitemaps st') <= size (U ∖ visitedSitemaps st))%nat.
Proof. intros [Hsub _]. apply subseteq_size. set_solver. Qed.

(** *** Every location of a served document is in the universe *)

Lemma locations_universe (web : Web) (root sitemapUrl l : string) (data : Body) :
  web !! sitemapUrl = Some data → l ∈ locations data → l ∈ universe web root.
Proof.
  intros Hweb Hl. unfold universe. apply elem_of_union_r, elem_of_list_to_set.
  apply list_elem_of_In, in_flat_map. exists (sitemapUrl, data). split.
  - apply list_elem_of_In. by apply elem_of_map_to_list.
  - by apply list_elem_of_In.
Qed.

Lemma firstLoc_flat_map {A} (f : A → list string) (e : A) (es : list A) (l : string)
    (rest : list string) :
  e ∈ es → f e = l :: rest → l ∈ flat_map (λ e, firstLoc (f e)) es.
Proof.
  intros He Hf. apply list_elem_of_In, in_flat_map. exists e. split.
  - by apply list_elem_of_In.
  - rewrite Hf. simpl. by left.
Qed.

(** *** The loop over the entries *)

Lemma forSitemaps_good (U : gset string) (k : nat) (self : string → M (list string))
    (sitemaps : list SitemapEntry) :
  (∀ sitemapUrl st, sitemapUrl ∈ U → (size (U ∖ visitedSitemaps st) < k)%nat →
                    callGood sitemapUrl st (self sitemapUrl st)) →
  (∀ e l rest, e ∈ sitemaps → SitemapEntry_loc e = l :: rest → l ∈ U) →
  ∀ urls st,
    (size (U ∖ visitedSitemaps st) < k)%nat →
    Forall (λ u, endsWith u ".xml" = false) urls →
    loopGood st (forSitemaps self sitemaps urls st).
Proof.
  intros Hself. induction sitemaps as [|e es IH]; intros HU urls st Hsize Hurls.
  - exists urls, st. split; [done|]. split; [apply extends_refl|done].
  - assert (HU' : ∀ e' l rest, e' ∈ es → SitemapEntry_loc e' = l :: rest → l ∈ U).
    { intros e' l rest He'. apply HU. by apply list_elem_of_further. }
    simpl. destruct (SitemapEntry_loc e) as [|l rest] eqn:Hloc; [by apply IH|].
    case_bool_decide as Hempty; [by apply IH|].
    destruct (endsWith l ".xml") eqn:Hxml.
    + assert (Hl : l ∈ U) by (eapply HU; [apply list_elem_of_here|done]).
      destruct (Hself l st Hl Hsize) as (childUrls & st1 & Hcall & Hext1 & Hchild & _).
      unfold mbind, M_bind, bind. rewrite Hcall.
      destruct (IH HU' (urls ++ childUrls) st1) as (out & st2 & Hloop & Hext2 & Hout).
      * pose proof (extends_size U st st1 Hext1). lia.
      * by apply Forall_app.
      * exists out, st2. split; [done|]. split; [by eapply extends_trans|done].
    + apply IH; [done|done|]. apply Forall_app. split; [done|]. by repeat constructor.
Qed.

(** *** The recursive function *)

Lemma extract_good (web : Web) (root : string) (fuel : nat) :
  ∀ sitemapUrl st,
    sitemapUrl ∈ universe web root →
    (size (universe web root ∖ visitedSitemaps st) < fuel)%nat →
    callGood sitemapUrl st (extractUrlsFromSitemap web fuel sitemapUrl st).
Proof.
  induction fuel as [|fuel IH]; intros sitemapUrl st HU Hsize; [lia|].
  simpl. case_bool_decide as Hvis.
  { exists [], st. split; [done|]. split; [apply extends_refl|]. split; [done|by left]. }
  set (st1 := {| visitedSitemaps := {[sitemapUrl]} ∪ visitedSitemaps st;
                 fetched := fetched st ++ [sitemapUrl] |}).
  assert (Hext1 : extends st st1).
  { split; [set_solver|]. exists [sitemapUrl]. split; [done|].
    split; [apply NoDup_singleton|]. repeat constructor; set_solver. }
  assert (Hsize1 : (size (universe web root ∖ visitedSitemaps st1) < fuel)%nat).
  { assert (universe web root ∖ visitedSitemaps st1 ⊂ universe web root ∖ visitedSitemaps st)
      as Hlt%subset_size; [|lia].
    simpl. set_solver. }
  assert (Hfail : callGood sitemapUrl st (Some (Normal [], st1))).
  { exists [], st1. split; [done|]. split; [done|]. split; [done|].
    right. split; [set_solver|]. by exists []. }
  assert (Hloop : ∀ r, loopGood st1 r → callGood sitemapUrl st
            (match r with
             | Some (Normal a, st') => Some (Normal a, st')
             | Some (Throw _, st') => ret [] st'
             | None => None
             end)).
  { intros r (urls & st2 & -> & Hext2 & Hurls).
    exists urls, st2. split; [done|]. split; [by eapply extends_trans|]. split; [done|].
    right. destruct Hext2 as (Hsub & new & Hnew & _). split; [set_solver|].
    exists new. rewrite Hnew. simpl. by rewrite <- app_assoc. }
  unfold mbind, M_bind, bind, markVisited, tryM, axios_get; simpl. fold st1.
  destruct (web !! sitemapUrl) as [[result|]|] eqn:Hweb; simpl; [|done|done].
  destruct (sitemapIndex result) as [index|] eqn:Hindex.
  - apply Hloop. apply (forSitemaps_good (universe web root) fuel); [exact IH| |done|done].
    intros e l rest He Hloc. eapply locations_universe; [exact Hweb|].
    simpl. rewrite Hindex. apply elem_of_app; left. by eapply firstLoc_flat_map.
  - destruct (urlset result) as [set|] eqn:Hset; [|done].
    apply Hloop. rewrite forUrlEntries_forSitemaps.
    apply (forSitemaps_good (universe web root) fuel); [exact IH| |done|done].
    intros e l rest He Hloc. eapply locations_universe; [exact Hweb|].
    simpl. rewrite Hset. apply elem_of_app; right.
    apply list_elem_of_fmap in He as (e0 & -> & He0).
    by eapply (firstLoc_flat_map SitemapUrl_loc).
Qed.

Lemma resolve_good (web : Web) (root : string) : callGood root fresh (resolve web root).
Proof.
  apply (extract_good web root).
  - unfold universe. set_solver.
  - simpl. assert (universe web root ∖ ∅ = universe web root) as -> by set_solver. lia.
Qed.

(** *** More fuel does not change a result *)

Lemma forSitemaps_mono (self self' : string → M (list string)) (sitemaps : list SitemapEntry) :
  (∀ u st r, self u st = Some r → self' u st = Some r) →
  ∀ urls st r,
    forSitemaps self sitemaps urls st = Some r →
    forSitemaps self' sitemaps urls st = Some r.
Proof.
  intros Hself. induction sitemaps as [|e es IH]; intros urls st r; [done|].
  simpl. destruct (SitemapEntry_loc e) as [|l ?]; [apply IH|].
  case_bool_decide; [apply IH|].
  destruct (endsWith l ".xml"); [|apply IH].
  unfold mbind, M_bind, bind.
  destruct (self l st) as [[[childUrls|err] st1]|] eqn:Hcall; [| |done].
  - rewrite (Hself _ _ _ Hcall). apply IH.
  - by rewrite (Hself _ _ _ Hcall).
Qed.

Lemma extract_fuel_mono (web : Web) (fuel : nat) :
  ∀ sitemapUrl st r,
    extractUrlsFromSitemap web fuel sitemapUrl st = Some r →
    extractUrlsFromSitemap web (S fuel) sitemapUrl st = Some r.
Proof.
  induction fuel as [|fuel IH]; intros sitemapUrl st r; [done|].
  change (extractUrlsFromSitemap web (S fuel) sitemapUrl st)
    with (if bool_decide (sitemapUrl ∈ visitedSitemaps st) then ret [] st
          else (markVisited sitemapUrl;;
                tryM (data ← axios_get web sitemapUrl;
                      result ← parseXML data;
                      match sitemapIndex result with
                      | Some index =>
                          forSitemaps (extractUrlsFromSitemap web fuel) (sitemap index) []
                      | None =>
                          match urlset result with
                          | Some set =>
                              forUrlEntries (extractUrlsFromSitemap web fuel) (url set) []
                          | None => ret []
                          end
                      end)
                     (λ error, ret [])) st).
  change (extractUrlsFromSitemap web (S (S fuel)) sitemapUrl st)
    with (if bool_decide (sitemapUrl ∈ visitedSitemaps st) then ret [] st
          else (markVisited sitemapUrl;;
                tryM (data ← axios_get web sitemapUrl;
                      result ← parseXML data;
                      match sitemapIndex result with
                      | Some index =>
                          forSitemaps (extractUrlsFromSitemap web (S fuel)) (sitemap index) []
                      | None =>
                          match urlset result with
                          | Some set =>
                              forUrlEntries (extractUrlsFromSitemap web (S fuel)) (url set) []
                          | None => ret []
                          end
                      end)
                     (λ error, ret [])) st).
  case_bool_decide; [done|].
  unfold mbind, M_bind, bind, markVisited, tryM, axios_get;
    cbn -[extractUrlsFromSitemap].
  destruct (web !! sitemapUrl) as [[result|]|]; cbn -[extractUrlsFromSitemap];
    [|done|done].
  destruct (sitemapIndex result) as [index|].
  - destruct (forSitemaps (extractUrlsFromSitemap web fuel) (sitemap index) [] _)
      as [r0|] eqn:Hloop; [|done].
    by rewrite (forSitemaps_mono _ _ _ IH _ _ _ Hloop).
  - destruct (urlset result) as [set|]; [|done].
    rewrite !forUrlEntries_forSitemaps.
    destruct (forSitemaps (extractUrlsFromSitemap web fuel) _ [] _)
      as [r0|] eqn:Hloop; [|done].
    by rewrite (forSitemaps_mono _ _ _ IH _ _ _ Hloop).
Qed.

(** With any budget above the one [resolve] uses the result is the same. *)
Lemma resolve_any_fuel (web : Web) (root : string) (extra : nat) :
  extractUrlsFromSitemap web (extra + S (size (universe web root))) root fresh
  = resolve web root.
Proof.
  destruct (resolve_good web root) as (urls & final & Hres & _).
  rewrite Hres. induction extra as [|extra IH]; [done|].
  simpl plus. by apply extract_fuel_mono.
Qed.

(** The rule applied to one location, in the sitemap-index loop. *)
Lemma forSitemaps_location (self : string → M (list string)) (l : string)
    (more : list string) (lastmod : option (list string)) (rest : list SitemapEntry)
    (urls : list string) (st : Crawl) :
  l ≠ EmptyString →
  forSitemaps self
    ({| SitemapEntry_loc := l :: more; SitemapEntry_lastmod := lastmod |} :: rest) urls st
  = if endsWith l ".xml"
    then (childUrls ← self l; forSitemaps self rest (urls ++ childUrls)) st
    else forSitemaps self rest (urls ++ [l]) st.
Proof.
  intros Hl. simpl. rewrite bool_decide_eq_false_2 by done.
  by destruct (endsWith l ".xml").
Qed.

(** The example of the design document, run. *)
Example resolve_cyclicWeb :
  option_map (λ p, (p.1, fetched p.2)) (resolve cyclicWeb "A.xml")
  = Some (Normal ["d1"; "c1"; "c2"], ["A.xml"; "B.xml"; "D.xml"; "E.xml"; "C.xml"]).
Proof. by vm_compute. Qed.

(** *** The claims about the resolver *)

(** C4.  For every sitemap graph and root the resolver returns a sequence
    of page URLs none of which ends in [.xml]; in the sitemap-index loop a
    (non-empty) location ending in [.xml] is passed to the recursive call
    and its result appended, any other is appended itself; and the urlset
    loop does the same with the locations of its entries. *)
Theorem no_xml_emitted (web : Web) (root : string) :
  (∃ urls final,
     resolve web root = Some (Normal urls, final) ∧
     Forall (λ u, endsWith u ".xml" = false) urls) ∧
  (∀ self l more lastmod rest urls st,
     l ≠ EmptyString →
     forSitemaps self
       ({| SitemapEntry_loc := l :: more; SitemapEntry_lastmod := lastmod |} :: rest) urls st
     = if endsWith l ".xml"
       then (childUrls ← self l; forSitemaps self rest (urls ++ childUrls)) st
       else forSitemaps self rest (urls ++ [l]) st) ∧
  (∀ self urlEntries urls st,
     forUrlEntries self urlEntries urls st
     = forSitemaps self (map asSitemapEntry urlEntries) urls st).
Proof.
  split; [|split].
  - destruct (resolve_good web root) as (urls & final & Hres & _ & Hurls & _). eauto.
  - intros. by apply forSitemaps_location.
  - intros. apply forUrlEntries_forSitemaps.
Qed.

Lemma no_xml_emitted_witness :
  "page" ≠ EmptyString ∧
  forSitemaps (extractUrlsFromSitemap cyclicWeb 1)
    [{| SitemapEntry_loc := ["page"]; SitemapEntry_lastmod := None |}] [] fresh
  = forSitemaps (extractUrlsFromSitemap cyclicWeb 1) [] ([] ++ ["page"]) fresh.
Proof.
  split; [done|].
  destruct (no_xml_emitted cyclicWeb "A.xml") as (_ & Hrule & _).
  by rewrite Hrule.
Defined.

(** C5.  For every (finite) sitemap graph, cyclic or not, the resolution
    returns, and the URLs it has fetched are pairwise distinct and all in
    the visited set; a call on a URL that is in the visited set returns
    the empty list at once and leaves the state, fetch log included, as
    it was; any other call puts its URL into the visited set and fetches
    it as the first thing, and nothing it does afterwards fetches that
    URL again. *)
Theorem terminates_fetching_once (web : Web) (root : string) :
  (∃ r final,
     resolve web root = Some (r, final) ∧
     NoDup (fetched final) ∧
     Forall (λ u, u ∈ visitedSitemaps final) (fetched final)) ∧
  (∀ fuel sitemapUrl st,
     sitemapUrl ∈ visitedSitemaps st →
     extractUrlsFromSitemap web (S fuel) sitemapUrl st = Some (Normal [], st)) ∧
  (∀ fuel sitemapUrl st,
     sitemapUrl ∉ visitedSitemaps st →
     sitemapUrl ∈ universe web root →
     (size (universe web root ∖ visitedSitemaps st) < fuel)%nat →
     ∃ r st' rest,
       extractUrlsFromSitemap web fuel sitemapUrl st = Some (r, st') ∧
       sitemapUrl ∈ visitedSitemaps st' ∧
       fetched st' = fetched st ++ sitemapUrl :: rest ∧
       NoDup (sitemapUrl :: rest)).
Proof.
  split; [|split].
  - destruct (resolve_good web root)
      as (urls & final & Hres & (_ & new & Hnew & Hnd & Hall) & _).
    exists (Normal urls), final. simpl in Hnew. rewrite Hnew.
    repeat split; [done|done|].
    eapply Forall_impl; [exact Hall|]. by intros u [? _].
  - intros fuel sitemapUrl st Hvis. simpl.
    by rewrite bool_decide_eq_true_2.
  - intros fuel sitemapUrl st Hvis HU Hsize.
    destruct (extract_good web root fuel sitemapUrl st HU Hsize)
      as (urls & st' & Hcall & (_ & new & Hnew & Hnd & _) & _ & [?|[Hin [rest Hrest]]]);
      [done|].
    exists (Normal urls), st', rest. repeat split; try done.
    rewrite Hrest in Hnew. by apply app_inv_head in Hnew as <-.
Qed.

Lemma terminates_fetching_once_witness :
  "B.xml" ∈ visitedSitemaps {| visitedSitemaps := {["B.xml"]}; fetched := ["B.xml"] |} ∧
  extractUrlsFromSitemap cyclicWeb 1 "B.xml"
    {| visitedSitemaps := {["B.xml"]}; fetched := ["B.xml"] |}
  = Some (Normal [], {| visitedSitemaps := {["B.xml"]}; fetched := ["B.xml"] |}) ∧
  "A.xml" ∉ visitedSitemaps fresh ∧
  "A.xml" ∈ universe cyclicWeb "A.xml" ∧
  (size (universe cyclicWeb "A.xml" ∖ visitedSitemaps fresh) < 9)%nat ∧
  ∃ r st' rest,
    extractUrlsFromSitemap cyclicWeb 9 "A.xml" fresh = Some (r, st') ∧
    fetched st' = fetched fresh ++ "A.xml" :: rest ∧
    NoDup ("A.xml" :: rest).
Proof.
  destruct (terminates_fetching_once cyclicWeb "A.xml") as (_ & Hskip & Hcall).
  split; [by vm_compute|].
  split; [apply Hskip; by vm_compute|].
  split; [by vm_compute|]. split; [by vm_compute|]. split; [vm_compute; lia|].
  destruct (Hcall 9%nat "A.xml" fresh) as (r & st' & rest & Hrun & _ & Hlog & Hnd);
    [by vm_compute|by vm_compute|vm_compute; lia|].
  by exists r, st', rest.
Defined.

(** C6.  The resolver never throws: for every graph and root it returns
    a list.  A node whose fetch fails or whose body does not parse
    returns the empty list (and is marked visited and fetched); and an
    entry whose nested resolution returned the empty list leaves the
    loop to go on with the remaining entries and the URLs collected so
    far. *)
Theorem fails_softly (web : Web) (root : string) :
  (∃ urls final, resolve web root = Some (Normal urls, final)) ∧
  (∀ fuel sitemapUrl st,
     sitemapUrl ∉ visitedSitemaps st →
     web !! sitemapUrl = None ∨ web !! sitemapUrl = Some Malformed →
     extractUrlsFromSitemap web (S fuel) sitemapUrl st
     = Some (Normal [], {| visitedSitemaps := {[sitemapUrl]} ∪ visitedSitemaps st;
                           fetched := fetched st ++ [sitemapUrl] |})) ∧
  (∀ self l more lastmod rest urls st st',
     l ≠ EmptyString → endsWith l ".xml" = true →
     self l st = Some (Normal [], st') →
     forSitemaps self
       ({| SitemapEntry_loc := l :: more; SitemapEntry_lastmod := lastmod |} :: rest) urls st
     = forSitemaps self rest urls st') ∧
  (∀ self l more lastmod changefreq priority rest urls st st',
     l ≠ EmptyString → endsWith l ".xml" = true →
     self l st = Some (Normal [], st') →
     forUrlEntries self
       ({| SitemapUrl_loc := l :: more; SitemapUrl_lastmod := lastmod;
           changefreq := changefreq; priority := priority |} :: rest) urls st
     = forUrlEntries self rest urls st').
Proof.
  split; [|split; [|split]].
  - destruct (resolve_good web root) as (urls & final & Hres & _). eauto.
  - intros fuel sitemapUrl st Hvis Hweb. simpl.
    rewrite bool_decide_eq_false_2 by done.
    unfold mbind, M_bind, bind, markVisited, tryM, axios_get; simpl.
    by destruct Hweb as [-> | ->].
  - intros self l more lastmod rest urls st st' Hl Hxml Hself.
    rewrite forSitemaps_location by done. rewrite Hxml.
    unfold mbind, M_bind, bind. rewrite Hself. by rewrite app_nil_r.
  - intros self l more lastmod cf pr rest urls st st' Hl Hxml Hself.
    simpl. rewrite bool_decide_eq_false_2 by done. rewrite Hxml.
    unfold mbind, M_bind, bind. rewrite Hself. by rewrite app_nil_r.
Qed.

Lemma fails_softly_witness :
  "gone.xml" ∉ visitedSitemaps fresh ∧
  (cyclicWeb !! "gone.xml" = None ∨ cyclicWeb !! "gone.xml" = Some Malformed) ∧
  extractUrlsFromSitemap cyclicWeb 1 "gone.xml" fresh
  = Some (Normal [], {| visitedSitemaps := {["gone.xml"]} ∪ ∅; fetched := ["gone.xml"] |}).
Proof.
  split; [by vm_compute|]. split; [by left|].
  destruct (fails_softly cyclicWeb "A.xml") as (_ & Hfail & _).
  apply Hfail; [by vm_compute|by left].
Defined.

End ResolverProps.

(** * Further properties *)

(** ** Statistics aggregator: mean, throughput, histograms *)

Module AggregatorMore.
Import JS LoadTest Aux.

Lemma div_ofZ_pos (a b : Z) :
  0 < b → div (ofZ a) (ofZ b) = Fin (inject_Z a / inject_Z b)%Q.
Proof.
  intros Hb. unfold div, ofZ.
  destruct (Qeq_bool (inject_Z b) 0) eqn:E; [|done].
  apply Qeq_bool_eq in E. unfold Qeq, inject_Z in E; simpl in E. lia.
Qed.

Lemma or_else_Fin (q : Q) : ∃ x : Q, or_else (Fin q) zero = Fin x ∧ (x == q)%Q.
Proof.
  unfold or_else, truthy, zero.
  destruct (Qeq_bool q 0) eqn:E; simpl.
  - exists 0%Q. split; [done|]. apply Qeq_bool_eq in E. by rewrite E.
  - exists q. split; [done|reflexivity].
Qed.

Lemma foldl_add (acc : Z) (l : list Z) : foldl Z.add acc l = acc + foldr Z.add 0 l.
Proof.
  revert acc; induction l as [|x l IH]; intros acc; simpl; [lia|].
  rewrite IH. lia.
Qed.

Lemma sum_bounds (lo hi : Z) (l : list Z) :
  Forall (λ t, lo <= t <= hi) l →
  lo * Z.of_nat (length l) <= foldr Z.add 0 l <= hi * Z.of_nat (length l).
Proof.
  induction 1 as [|t l Ht _ IH]; simpl length; simpl foldr; [lia|].
  rewrite Nat2Z.inj_succ. lia.
Qed.

Lemma average_nonempty (r : LoadTestResult) (rs : list LoadTestResult) (d : number) :
  ∃ x : Q,
    averageResponseTime (calculateLoadTestSummary (r :: rs) d) = Fin x ∧
    (x == inject_Z (foldr Z.add 0%Z (map responseTime (r :: rs)))
          / inject_Z (Z.of_nat (length (r :: rs))))%Q.
Proof.
  unfold calculateLoadTestSummary, averageResponseTime.
  unfold ofNat. rewrite div_ofZ_pos by (simpl length; lia).
  rewrite foldl_add, Z.add_0_l, length_map.
  apply or_else_Fin.
Qed.

(** X2.  On a non-empty collection the mean lies between the least and the
    greatest response time. *)
Theorem average_between_extrema (r : LoadTestResult) (rs : list LoadTestResult)
    (d : number) :
  ∃ x : Q,
    averageResponseTime (calculateLoadTestSummary (r :: rs) d) = Fin x ∧
    (inject_Z (foldr Z.min (responseTime r) (map responseTime rs)) <= x)%Q ∧
    (x <= inject_Z (foldr Z.max (responseTime r) (map responseTime rs)))%Q.
Proof.
  destruct (average_nonempty r rs d) as (x & Hx & Heq). exists x. split; [done|].
  destruct (AggregatorProps.foldr_min_spec (responseTime r) (map responseTime rs))
    as [_ Hlo].
  destruct (AggregatorProps.foldr_max_spec (responseTime r) (map responseTime rs))
    as [_ Hhi].
  set (lo := foldr Z.min (responseTime r) (map responseTime rs)) in *.
  set (hi := foldr Z.max (responseTime r) (map responseTime rs)) in *.
  assert (Hall : Forall (λ t, lo <= t <= hi) (map responseTime (r :: rs))).
  { change (map responseTime (r :: rs)) with (responseTime r :: map responseTime rs).
    rewrite Forall_forall in Hlo, Hhi. apply Forall_forall. intros t Ht.
    split; [by apply Hlo|by apply Hhi]. }
  apply sum_bounds in Hall. rewrite length_map in Hall.
  assert (Hlen : (0 < inject_Z (Z.of_nat (length (r :: rs))))%Q).
  { change 0%Q with (inject_Z 0). rewrite <- Zlt_Qlt. simpl length. lia. }
  rewrite Heq. split.
  - apply Qle_shift_div_l; [done|].
    rewrite <- inject_Z_mult, <- Zle_Qle. lia.
  - apply Qle_shift_div_r; [done|].
    rewrite <- inject_Z_mult, <- Zle_Qle. lia.
Qed.

(** *** Histograms *)

Lemma foldl_bumpKey `{Countable K} (key : LoadTestResult → option K) (k : K)
    (l : list LoadTestResult) (m : gmap K nat) :
  foldl (bumpKey key) m l !! k
  = if (occurrences key k l =? 0)%nat then m !! k
    else Some (default 0 (m !! k) + occurrences key k l)%nat.
Proof.
  revert m; induction l as [|r l IH]; intros m; [done|].
  simpl foldl. rewrite IH. unfold occurrences. rewrite filter_cons.
  unfold bumpKey, bump. destruct (key r) as [k'|] eqn:Hkey.
  - destruct (decide (k' = k)) as [->|Hne].
    + rewrite decide_True by done. rewrite lookup_insert_eq. simpl.
      destruct (length (filter _ l) =? 0)%nat eqn:E.
      * apply Nat.eqb_eq in E. rewrite E. f_equal. lia.
      * f_equal. lia.
    + rewrite decide_False by congruence. by rewrite lookup_insert_ne.
  - by rewrite decide_False.
Qed.

Lemma foldl_countStatus (l : list LoadTestResult) (m : gmap Z nat) :
  foldl countStatus m l = foldl (bumpKey statusKey) m l.
Proof.
  revert m; induction l as [|r l IH]; intros m; [done|].
  simpl. rewrite IH. f_equal.
  unfold countStatus, bumpKey, statusKey.
  destruct (statusCode r) as [c|]; [|done]. by case_bool_decide.
Qed.

Lemma foldl_countError (l : list LoadTestResult) (m : gmap string nat) :
  foldl countError m l = foldl (bumpKey errorKey) m l.
Proof.
  revert m; induction l as [|r l IH]; intros m; [done|].
  simpl. rewrite IH. f_equal.
  unfold countError, bumpKey, errorKey.
  destruct (error r) as [e|]; [|done]. by case_bool_decide.
Qed.

Lemma filter_never {A} (l : list A) : length (filter (λ _, False) l) = 0%nat.
Proof.
  induction l as [|x l IH]; [done|].
  rewrite filter_cons. by destruct (decide False).
Qed.

Lemma occurrences_status (c : Z) (l : list LoadTestResult) :
  occurrences statusKey c l
  = if bool_decide (c = 0) then 0%nat
    else length (filter (λ r, statusCode r = Some c) l).
Proof.
  unfold occurrences. case_bool_decide as H0.
  - subst. rewrite (list_filter_iff _ (λ _, False)); [apply filter_never|].
    intros r. split; [|done]. unfold statusKey.
    destruct (statusCode r); [case_bool_decide; congruence|done].
  - rewrite (list_filter_iff _ (λ r, statusCode r = Some c)); [done|].
    intros r. unfold statusKey.
    destruct (statusCode r); [case_bool_decide; split; congruence|done].
Qed.

Lemma occurrences_error (e : string) (l : list LoadTestResult) :
  occurrences errorKey e l
  = if bool_decide (e = EmptyString) then 0%nat
    else length (filter (λ r, error r = Some e) l).
Proof.
  unfold occurrences. case_bool_decide as H0.
  - subst. rewrite (list_filter_iff _ (λ _, False)); [apply filter_never|].
    intros r. split; [|done]. unfold errorKey.
    destruct (error r); [case_bool_decide; congruence|done].
  - rewrite (list_filter_iff _ (λ r, error r = Some e)); [done|].
    intros r. unfold errorKey.
    destruct (error r); [case_bool_decide; split; congruence|done].
Qed.

(** X4.  [statusCodeDistribution] maps each non-zero status code that occurs
    to the number of results carrying it; status [0] and codes that do
    not occur have no entry. *)
Theorem statusCodeDistribution_counts (results : list LoadTestResult) (d : number)
    (c : Z) :
  statusCodeDistribution (calculateLoadTestSummary results d) !! c
  = let n := length (filter (λ r, statusCode r = Some c) results) in
    if bool_decide (c = 0) || (n =? 0)%nat then None else Some n.
Proof.
  unfold calculateLoadTestSummary, statusCodeDistribution.
  rewrite foldl_countStatus, foldl_bumpKey, occurrences_status, lookup_empty.
  simpl. case_bool_decide; simpl; [done|].
  by destruct (length _ =? 0)%nat.
Qed.

(** X5.  [errors] is a plain object, so for a description that names a
    property every object inherits ([constructor], [toString], ...) the
    read [errors[r.error] || 0] does not find a count.  For every other
    description: [errors] maps it, when it is not empty, to the number of
    failed results carrying it; results with [success = true] and results
    without description contribute nothing. *)
Theorem errors_counts (results : list LoadTestResult) (d : number) (e : string) :
  inheritedProperty e = false →
  errors (calculateLoadTestSummary results d) !! e
  = let n := length (filter (λ r, error r = Some e ∧ success r = false) results) in
    if bool_decide (e = EmptyString) || (n =? 0)%nat then None else Some n.
Proof.
  intros _.
  unfold calculateLoadTestSummary, errors.
  rewrite foldl_countError, foldl_bumpKey, occurrences_error, lookup_empty.
  rewrite list_filter_filter.
  simpl. case_bool_decide; simpl; [done|].
  by destruct (length _ =? 0)%nat.
Qed.

Lemma errors_counts_witness :
  inheritedProperty "timeout of 15000ms exceeded" = false ∧
  errors (calculateLoadTestSummary
            [{| url := "a"; success := false; statusCode := None; responseTime := 15000;
                error := Some "timeout of 15000ms exceeded"; timestamp := 15000 |};
             {| url := "b"; success := true; statusCode := Some 200; responseTime := 7;
                error := None; timestamp := 15007 |};
             {| url := "c"; success := false; statusCode := None; responseTime := 15000;
                error := Some "timeout of 15000ms exceeded"; timestamp := 30007 |}]
            (Fin 30)) !! "timeout of 15000ms exceeded"
  = Some 2%nat.
Proof.
  split; [reflexivity|].
  rewrite errors_counts by reflexivity. reflexivity.
Defined.

End AggregatorMore.

(** ** Load-test scheduler: what the results are *)

Module SchedulerMore.
Import JS LoadTest Aux.

Lemma removeRequest_sublist (k : nat) (l : list InFlight) :
  removeRequest k l `sublist_of` l.
Proof.
  induction l as [|x l IH]; simpl; [done|].
  case_bool_decide; [by apply sublist_cons|by apply sublist_skip].
Qed.

Lemma removeRequest_perm (l : list InFlight) (r : InFlight) :
  NoDup (map rid l) → r ∈ l → l ≡ₚ r :: removeRequest (rid r) l.
Proof.
  induction l as [|x l IH]; simpl; [by intros _ ?%elem_of_nil|].
  intros [Hx Hnd]%NoDup_cons Hin. case_bool_decide as Hrid.
  - apply elem_of_cons in Hin as [->|Hin]; [done|].
    exfalso. apply Hx. rewrite Hrid. by apply list_elem_of_fmap_2.
  - apply elem_of_cons in Hin as [->|Hin]; [done|].
    rewrite (IH Hnd Hin) at 1. apply perm_swap.
Qed.

Lemma loadTestUrl_url (w : World) (k : nat) (u : string) (a b : Z) :
  url (loadTestUrl w k u a b) = u.
Proof. unfold loadTestUrl. by destruct (respond w k u). Qed.

Lemma loadTestUrl_timestamp (w : World) (k : nat) (u : string) (a b : Z) :
  timestamp (loadTestUrl w k u a b) = b.
Proof. unfold loadTestUrl. by destruct (respond w k u). Qed.

Lemma loadTestUrl_ok (w : World) (k : nat) (u : string) (a b : Z) :
  a <= b → resultOk (loadTestUrl w k u a b).
Proof.
  intros Hab. unfold loadTestUrl, resultOk.
  destruct (respond w k u); simpl; (split; [lia|]); [done|]. split; [by eexists|done].
Qed.

Section Run.
Context (w : World) (c : Z) (d : option Z) (t0 : Z) (q : list RequestQueueItem).

Lemma inv2_initial : inv2 q (initial q t0).
Proof.
  unfold inv2, initial; simpl.
  repeat split; try done; try lia; try by constructor.
Qed.

Lemma inv2_setPc (p : Pc) (s : Sched) :
  p ≠ Returned ∨ activeRequests s = [] → inv2 q s → inv2 q (setPc p s).
Proof.
  unfold inv2; simpl. intros Hp (H1 & H2 & H3 & H4 & H5 & H6 & H7 & H8 & H9 & H10 & _).
  repeat (split; [done|]). intros ->. by destruct Hp.
Qed.

Lemma inv2_dispatch (s : Sched) :
  pending s ≠ [] → inv2 q s → inv2 q (dispatch w s).
Proof.
  unfold inv2, dispatch.
  intros Hne (Hpend & Hle & Hiss & Hmade & Hnd & Hact & Hperm & Hsort & Hts & Hok & _).
  destruct (pending s) as [|it rest] eqn:Ep; [done|]. simpl.
  assert (Hq : q !! issued s = Some it).
  { rewrite <- (Nat.add_0_r (issued s)), <- lookup_drop, <- Hpend. done. }
  rewrite Forall_forall in Hact.
  split. { rewrite (drop_S _ _ _ Hq) in Hpend. by injection Hpend. }
  split. { apply lookup_lt_Some in Hq. lia. }
  split. { rewrite length_app; simpl. lia. }
  split; [done|].
  split.
  { rewrite map_app. apply NoDup_app. split; [done|]. split; [|apply NoDup_singleton].
    intros k Hk ?%list_elem_of_singleton. subst k.
    apply list_elem_of_fmap in Hk as (x & Hx & Hin). apply Hact in Hin. simpl in Hx. lia. }
  split.
  { apply Forall_app. split.
    - apply Forall_forall. intros x Hx. destruct (Hact x Hx). split; lia.
    - repeat constructor; simpl; lia. }
  split.
  { rewrite map_app, app_assoc, (take_S_r _ _ _ Hq), map_app. simpl.
    by apply Permutation_app_tail. }
  repeat (split; [done|]). done.
Qed.

Lemma inv2_complete (r : InFlight) (s : Sched) :
  r ∈ activeRequests s → pc s ≠ Returned → inv2 q s → inv2 q (complete w r s).
Proof.
  unfold inv2, complete.
  intros Hin Hpc (Hpend & Hle & Hiss & Hmade & Hnd & Hact & Hperm & Hsort & Hts & Hok & _).
  simpl.
  pose proof (SchedulerProps.removeRequest_length _ r Hin) as Hlen.
  pose proof (removeRequest_sublist (rid r) (activeRequests s)) as Hsub.
  rewrite Forall_forall in Hact. rewrite Forall_forall in Hts.
  destruct (Hact r Hin) as [_ Hstart].
  split; [done|]. split; [done|].
  split. { rewrite length_app; simpl. lia. }
  split. { rewrite length_app; simpl. lia. }
  split. { eapply sublist_NoDup; [exact Hnd|]. by apply (fmap_sublist rid). }
  split.
  { apply Forall_forall. intros x Hx.
    destruct (Hact x (elem_of_sublist _ _ _ Hx Hsub)). split; lia. }
  split.
  { rewrite <- Hperm, map_app. simpl. rewrite loadTestUrl_url, <- app_assoc.
    apply Permutation_app_head.
    rewrite (removeRequest_perm _ r Hnd Hin) at 2. done. }
  split.
  { rewrite map_app. apply StronglySorted_app_2; [|done|repeat constructor].
    intros t1 t2 Ht1 ?%list_elem_of_singleton. subst t2. simpl.
    rewrite loadTestUrl_timestamp.
    apply list_elem_of_fmap in Ht1 as (x & -> & Hx). specialize (Hts x Hx). simpl in Hts. lia. }
  split.
  { apply Forall_app. split.
    - apply Forall_forall. intros x Hx. specialize (Hts x Hx). simpl in Hts. lia.
    - repeat constructor. rewrite loadTestUrl_timestamp. lia. }
  split.
  { apply Forall_app. split; [done|]. apply Forall_singleton, loadTestUrl_ok. lia. }
  done.
Qed.

Lemma inv2_step (s s' : Sched) :
  inv2 q s → step w c d t0 s = Some s' → inv2 q s'.
Proof.
  intros Hinv. unfold step.
  destruct (pc s) eqn:Epc.
  - destruct (pending s) eqn:Ep.
    { intros [= <-]. apply inv2_setPc; [by left|done]. }
    destruct (durationReached d t0 (now s)).
    { intros [= <-]. apply inv2_setPc; [by left|done]. }
    destruct (c <=? Z.of_nat (length (activeRequests s))).
    + intros [= <-]. apply inv2_setPc; [by left|done].
    + intros [= <-]. apply inv2_dispatch; [by rewrite Ep|done].
  - destruct (earliest (activeRequests s)) as [r|] eqn:He; [|done].
    intros [= <-]. apply inv2_setPc; [by left|].
    apply inv2_complete; [by apply SchedulerProps.earliest_elem|by rewrite Epc|done].
  - intros [= <-]. destruct (pending s) eqn:Ep.
    + unfold dispatch. rewrite Ep. apply inv2_setPc; [by left|done].
    + apply inv2_dispatch; [by rewrite Ep|done].
  - destruct (earliest (activeRequests s)) as [r|] eqn:He.
    + intros [= <-].
      apply inv2_complete; [by apply SchedulerProps.earliest_elem|by rewrite Epc|done].
    + intros [= <-]. apply inv2_setPc; [|done].
      right. by apply SchedulerProps.earliest_None.
  - done.
Qed.

Lemma inv2_steps (n : nat) (s : Sched) :
  inv2 q s → inv2 q (steps w c d t0 n s).
Proof.
  revert s; induction n as [|n IH]; intros s Hs; [done|].
  simpl. destruct (step w c d t0 s) as [s1|] eqn:E; [|done].
  apply IH. by eapply inv2_step.
Qed.

(** With a limit of 1 the dispatched prefix of the queue is kept in
    order. *)
Lemma inOrder_step (s s' : Sched) :
  c = 1 → inv c d t0 q s → inv2 q s → inOrder q s →
  step w c d t0 s = Some s' → inOrder q s'.
Proof.
  intros -> (Hcap & _ & Hres & _) (Hpend & _ & _ & _ & _ & _ & _) Hord.
  unfold inOrder in *. unfold step.
  assert (Hdispatch : activeRequests s = [] → pending s ≠ [] →
    map url (results (dispatch w s))
      ++ map (λ x, item_url (item x)) (activeRequests (dispatch w s))
    = map item_url (take (issued (dispatch w s)) q)).
  { intros Hact Hne. unfold dispatch.
    destruct (pending s) as [|it rest] eqn:Ep; [done|]. simpl.
    assert (Hq : q !! issued s = Some it).
    { rewrite <- (Nat.add_0_r (issued s)), <- lookup_drop, <- Hpend. done. }
    rewrite (take_S_r _ _ _ Hq), (map_app item_url), <- Hord, Hact. simpl.
    by rewrite app_nil_r. }
  assert (Hcomplete : ∀ r, r ∈ activeRequests s →
    map url (results (complete w r s))
      ++ map (λ x, item_url (item x)) (activeRequests (complete w r s))
    = map item_url (take (issued (complete w r s)) q)).
  { intros r Hin. simpl. rewrite <- Hord.
    destruct (activeRequests s) as [|x [|y l]] eqn:Ea; [by apply elem_of_nil in Hin| |].
    - apply list_elem_of_singleton in Hin as ->. simpl.
      rewrite bool_decide_eq_true_2 by done.
      rewrite map_app. simpl. by rewrite loadTestUrl_url, app_nil_r.
    - simpl in Hcap. lia. }
  destruct (pc s) eqn:Epc.
  - destruct (pending s) eqn:Ep; [by intros [= <-]|].
    destruct (durationReached d t0 (now s)); [by intros [= <-]|].
    destruct (Z.leb_spec 1 (Z.of_nat (length (activeRequests s)))); [by intros [= <-]|].
    intros [= <-]. apply Hdispatch; [|done].
    destruct (activeRequests s); [done|simpl in *; lia].
  - destruct (earliest (activeRequests s)) as [r|] eqn:He; [|done].
    intros [= <-]. simpl. by apply Hcomplete, SchedulerProps.earliest_elem.
  - destruct (Hres eq_refl) as [Hlt Hne].
    intros [= <-]. apply Hdispatch; [|done].
    destruct (activeRequests s); [done|simpl in *; lia].
  - destruct (earliest (activeRequests s)) as [r|] eqn:He; [|by intros [= <-]].
    intros [= <-]. by apply Hcomplete, SchedulerProps.earliest_elem.
  - done.
Qed.

Lemma inOrder_steps (n : nat) (s : Sched) :
  c = 1 → inv c d t0 q s → inv2 q s → inOrder q s →
  inOrder q (steps w c d t0 n s).
Proof.
  intros Hc. revert s; induction n as [|n IH]; intros s Hinv Hinv2 Hord; [done|].
  simpl. destruct (step w c d t0 s) as [s1|] eqn:E; [|done].
  apply IH.
  - eapply SchedulerProps.inv_step; [lia|done|done].
  - by eapply inv2_step.
  - by eapply inOrder_step.
Qed.

End Run.

(** *** From [runLoadTest] to the final state *)

Lemma runLoadTest_Some (w : World) (t0 : Z) (urls : list string) (options : Options)
    (rs : list LoadTestResult) (summary : LoadTestSummary) :
  runLoadTest w t0 urls options = Some (rs, summary) →
  ∃ final,
    reachable w t0 urls options final ∧ pc final = Returned ∧ rs = results final ∧
    summary = calculateLoadTestSummary rs (div (ofZ (now final - t0)) (ofZ 1000)).
Proof.
  unfold runLoadTest. intros Hrun. eexists. split; [by eexists|].
  destruct (pc (steps _ _ _ _ _ _)) eqn:Epc; try done.
  injection Hrun as <- <-. done.
Qed.

Lemma reachable_inv2 (w : World) (t0 : Z) (urls : list string) (options : Options)
    (s : Sched) :
  reachable w t0 urls options s →
  inv2 (buildQueue urls (orDefault (opt_requestsPerUrl options) 1)) s.
Proof. intros [n ->]. apply inv2_steps, inv2_initial. Qed.

Lemma queue_urls (urls : list string) (n : nat) :
  map item_url (spec_requestQueue urls n) = concat (replicate n urls).
Proof.
  unfold spec_requestQueue. generalize 0%nat as start.
  induction n as [|n IH]; intros start; simpl; [done|].
  rewrite map_app, IH. f_equal.
  rewrite map_map. simpl. apply map_id.
Qed.

(** *** What the results are *)

(** X6.  Whatever the options, the results [runLoadTest] returns are those of
    an initial segment of the queue: as many as were dispatched, none
    skipped, none twice (as URLs, up to order). *)
Theorem results_follow_queue (w : World) (t0 : Z) (urls : list string)
    (options : Options) (rs : list LoadTestResult) (summary : LoadTestSummary) :
  runLoadTest w t0 urls options = Some (rs, summary) →
  let requestQueue := buildQueue urls (orDefault (opt_requestsPerUrl options) 1) in
  (length rs <= length requestQueue)%nat ∧
  map url rs ≡ₚ map item_url (take (length rs) requestQueue).
Proof.
  intros (final & Hreach & Hret & -> & _)%runLoadTest_Some.
  pose proof (reachable_inv2 _ _ _ _ _ Hreach)
    as (_ & Hle & Hiss & _ & _ & _ & Hperm & _ & _ & _ & Hidle).
  rewrite (Hidle Hret) in Hiss, Hperm. simpl in Hiss, Hperm.
  rewrite app_nil_r, Nat.add_0_r in *. rewrite <- Hiss. done.
Qed.

Lemma results_follow_queue_witness :
  ∃ rs summary,
    runLoadTest (steadyWorld 10000) 0 ["a"; "b"; "c"] (mkOptions 2 1 (Some 5))
      = Some (rs, summary) ∧
    map url rs ≡ₚ map item_url (take (length rs) (buildQueue ["a"; "b"; "c"] 1)).
Proof.
  destruct (runLoadTest (steadyWorld 10000) 0 ["a"; "b"; "c"] (mkOptions 2 1 (Some 5)))
    as [[rs summary]|] eqn:E; [|by vm_compute in E].
  exists rs, summary. split; [done|].
  by destruct (results_follow_queue _ _ _ _ _ _ E).
Defined.

(** X7.  Without a duration cap and with a positive concurrency limit every
    URL is requested exactly [requestsPerUrl] times: the URLs of the
    results are, up to order, [requestsPerUrl] copies of the URL list. *)
Theorem every_url_requested (w : World) (t0 : Z) (urls : list string)
    (options : Options) :
  0 < orDefault (opt_concurrency options) 10 →
  opt_duration options = None →
  ∃ rs summary,
    runLoadTest w t0 urls options = Some (rs, summary) ∧
    map url rs
      ≡ₚ concat (replicate (Z.to_nat (orDefault (opt_requestsPerUrl options) 1)) urls).
Proof.
  intros Hc Hd.
  destruct (SchedulerProps.runLoadTest_returns w t0 urls options Hc)
    as (final & Hreach & Hret & Hrun).
  do 2 eexists. split; [exact Hrun|].
  pose proof (SchedulerProps.reachable_inv w t0 urls options final Hc Hreach)
    as (_ & _ & _ & _ & Hq & Hact & Hbrk).
  pose proof (reachable_inv2 _ _ _ _ _ Hreach)
    as (_ & _ & _ & _ & _ & _ & Hperm & _).
  rewrite (Hact Hret) in Hperm. simpl in Hperm. rewrite app_nil_r in Hperm.
  destruct Hbrk as [Hpend|[t Ht]]; [by right| |by rewrite Hd in Ht].
  rewrite Hpend in Hq. simpl in Hq. rewrite Nat.add_0_r in Hq.
  rewrite Hq, firstn_all in Hperm.
  by rewrite Hperm, SchedulerProps.buildQueue_spec, queue_urls.
Qed.

Lemma every_url_requested_witness :
  0 < 2 ∧
  ∃ rs summary,
    runLoadTest (steadyWorld 40) 0 ["a"; "b"] (mkOptions 2 3 None) = Some (rs, summary) ∧
    map url rs ≡ₚ ["a"; "b"; "a"; "b"; "a"; "b"].
Proof.
  split; [lia|].
  destruct (every_url_requested (steadyWorld 40) 0 ["a"; "b"] (mkOptions 2 3 None))
    as (rs & summary & Hrun & Hperm); [simpl; lia|reflexivity|].
  by exists rs, summary.
Defined.

(** X8.  With a concurrency limit of 1 the results come in queue order. *)
Theorem sequential_results_in_queue_order (w : World) (t0 : Z) (urls : list string)
    (options : Options) (rs : list LoadTestResult) (summary : LoadTestSummary) :
  orDefault (opt_concurrency options) 10 = 1 →
  runLoadTest w t0 urls options = Some (rs, summary) →
  map url rs
  = map item_url
      (take (length rs) (buildQueue urls (orDefault (opt_requestsPerUrl options) 1))).
Proof.
  intros Hc (final & Hreach & Hret & -> & _)%runLoadTest_Some.
  pose proof (reachable_inv2 _ _ _ _ _ Hreach)
    as (_ & _ & Hiss & _ & _ & _ & _ & _ & _ & _ & Hidle).
  assert (Hord : inOrder (buildQueue urls (orDefault (opt_requestsPerUrl options) 1)) final).
  { destruct Hreach as [n ->]. apply inOrder_steps; [done| | |done].
    - apply SchedulerProps.inv_initial. lia.
    - apply inv2_initial. }
  unfold inOrder in Hord. rewrite (Hidle Hret) in Hord, Hiss. simpl in Hord, Hiss.
  rewrite app_nil_r in Hord. rewrite Nat.add_0_r in Hiss. by rewrite <- Hiss.
Qed.

Lemma sequential_results_in_queue_order_witness :
  ∃ rs summary,
    runLoadTest (steadyWorld 40) 0 ["a"; "b"] (mkOptions 1 2 None) = Some (rs, summary) ∧
    map url rs = ["a"; "b"; "a"; "b"].
Proof.
  destruct (runLoadTest (steadyWorld 40) 0 ["a"; "b"] (mkOptions 1 2 None))
    as [[rs summary]|] eqn:E; [|by vm_compute in E].
  exists rs, summary. split; [done|].
  rewrite (sequential_results_in_queue_order (steadyWorld 40) 0 ["a"; "b"]
             (mkOptions 1 2 None) rs summary eq_refl E).
  replace (length rs) with 4%nat; [done|].
  vm_compute in E. by injection E as <- _.
Defined.

(** X9.  The results are in completion order: their timestamps never
    decrease along the list. *)
Theorem results_chronological (w : World) (t0 : Z) (urls : list string)
    (options : Options) (rs : list LoadTestResult) (summary : LoadTestSummary) :
  runLoadTest w t0 urls options = Some (rs, summary) →
  StronglySorted Z.le (map timestamp rs).
Proof.
  intros (final & Hreach & _ & -> & _)%runLoadTest_Some.
  by pose proof (reachable_inv2 _ _ _ _ _ Hreach)
    as (_ & _ & _ & _ & _ & _ & _ & Hsort & _).
Qed.

Lemma results_chronological_witness :
  ∃ rs summary,
    runLoadTest (steadyWorld 40) 0 ["a"; "b"; "c"] (mkOptions 2 1 None) = Some (rs, summary) ∧
    StronglySorted Z.le (map timestamp rs).
Proof.
  destruct (runLoadTest (steadyWorld 40) 0 ["a"; "b"; "c"] (mkOptions 2 1 None))
    as [[rs summary]|] eqn:E; [|by vm_compute in E].
  exists rs, summary. split; [done|].
  exact (results_chronological _ _ _ _ _ _ E).
Defined.

(** X10.  Every result has a response time that is not negative, and carries
    either a status code (then no error description, and [success] says
    whether the code is in [200, 400)) or an error description (then
    [success] is [false]). *)
Theorem results_well_formed (w : World) (t0 : Z) (urls : list string)
    (options : Options) (rs : list LoadTestResult) (summary : LoadTestSummary) :
  runLoadTest w t0 urls options = Some (rs, summary) →
  Forall resultOk rs.
Proof.
  intros (final & Hreach & _ & -> & _)%runLoadTest_Some.
  by pose proof (reachable_inv2 _ _ _ _ _ Hreach)
    as (_ & _ & _ & _ & _ & _ & _ & _ & _ & Hok & _).
Qed.

Lemma results_well_formed_witness :
  ∃ rs summary,
    runLoadTest (steadyWorld 40) 0 ["a"; "b"; "c"] (mkOptions 2 1 None) = Some (rs, summary) ∧
    Forall resultOk rs.
Proof.
  destruct (runLoadTest (steadyWorld 40) 0 ["a"; "b"; "c"] (mkOptions 2 1 None))
    as [[rs summary]|] eqn:E; [|by vm_compute in E].
  exists rs, summary. split; [done|].
  exact (results_well_formed _ _ _ _ _ _ E).
Defined.

(** *** Options outside their documented domain *)

(** X11.  With a negative concurrency limit and a non-empty queue (and a cap
    that is not reached at the start) the first iteration awaits
    [Promise.race] of an empty array: the promise of [runLoadTest] never
    settles. *)
Theorem negative_concurrency_hangs (w : World) (t0 : Z) (urls : list string)
    (options : Options) :
  orDefault (opt_concurrency options) 10 < 0 →
  buildQueue urls (orDefault (opt_requestsPerUrl options) 1) ≠ [] →
  durationReached (opt_duration options) t0 t0 = false →
  runLoadTest w t0 urls options = None.
Proof.
  intros Hc Hq Hd. unfold runLoadTest, enough.
  set (c := orDefault (opt_concurrency options) 10) in *.
  set (q := buildQueue urls (orDefault (opt_requestsPerUrl options) 1)) in *.
  replace (3 * length q + 3)%nat with (S (S (3 * length q + 1))) by lia.
  destruct q as [|it rest] eqn:Eq; [done|].
  assert (Hfull : (c <=? Z.of_nat 0) = true) by (apply Z.leb_le; lia).
  simpl steps. unfold step at 1. simpl. rewrite Hd. simpl in Hfull. rewrite Hfull.
  simpl. done.
Qed.

Lemma negative_concurrency_hangs_witness :
  -1 < 0 ∧ buildQueue ["a"] 1 ≠ [] ∧ durationReached None 0 0 = false ∧
  runLoadTest (steadyWorld 40) 0 ["a"] (mkOptions (-1) 1 None) = None.
Proof.
  split; [lia|]. split; [done|]. split; [reflexivity|].
  apply (negative_concurrency_hangs (steadyWorld 40) 0 ["a"] (mkOptions (-1) 1 None));
    [simpl; lia|done|reflexivity].
Defined.

Lemma step_zero_duration (w : World) (c t0 : Z) (s : Sched) :
  step w c (Some 0) t0 s = step w c None t0 s.
Proof. done. Qed.

Lemma steps_zero_duration (w : World) (c t0 : Z) (n : nat) (s : Sched) :
  steps w c (Some 0) t0 n s = steps w c None t0 n s.
Proof.
  revert s; induction n as [|n IH]; intros s; [done|].
  simpl. rewrite step_zero_duration. destruct (step w c None t0 s); [apply IH|done].
Qed.

(** X12.  A duration of [0] is no cap at all: the run is the run without
    [duration]. *)
Theorem zero_duration_is_no_cap (w : World) (t0 : Z) (urls : list string)
    (options : Options) :
  opt_duration options = Some 0 →
  runLoadTest w t0 urls options
  = runLoadTest w t0 urls
      {| opt_concurrency := opt_concurrency options;
         opt_requestsPerUrl := opt_requestsPerUrl options;
         opt_duration := None |}.
Proof.
  intros Hd. unfold runLoadTest. simpl. by rewrite Hd, steps_zero_duration.
Qed.

Lemma zero_duration_is_no_cap_witness :
  runLoadTest (steadyWorld 40) 0 ["a"; "b"] (mkOptions 1 1 (Some 0))
  = runLoadTest (steadyWorld 40) 0 ["a"; "b"] (mkOptions 1 1 None).
Proof.
  exact (zero_duration_is_no_cap (steadyWorld 40) 0 ["a"; "b"] (mkOptions 1 1 (Some 0))
           eq_refl).
Defined.

(** X13.  A negative duration is reached before anything is dispatched:
    [runLoadTest] returns at once with no result, and the summary of the
    empty collection. *)
Theorem negative_duration_returns_nothing (w : World) (t0 : Z) (urls : list string)
    (options : Options) (d : Z) :
  opt_duration options = Some d → d < 0 →
  ∃ summary,
    runLoadTest w t0 urls options = Some ([], summary) ∧
    totalRequests summary = 0%nat ∧
    minResponseTime summary = PosInf ∧ maxResponseTime summary = NegInf.
Proof.
  intros Hd Hneg. unfold runLoadTest, enough. rewrite Hd.
  set (c := orDefault (opt_concurrency options) 10).
  set (q := buildQueue urls (orDefault (opt_requestsPerUrl options) 1)).
  replace (3 * length q + 3)%nat with (S (S (3 * length q + 1))) by lia.
  assert (Hreached : durationReached (Some d) t0 t0 = true).
  { unfold durationReached. rewrite bool_decide_eq_false_2 by lia. simpl.
    apply Z.leb_le. lia. }
  assert (Hstep : step w c (Some d) t0 (initial q t0) = Some (setPc AwaitAll (initial q t0))).
  { unfold step. simpl pc. simpl pending. simpl now. destruct q; [done|].
    by rewrite Hreached. }
  assert (Hfinal : steps w c (Some d) t0 (S (S (3 * length q + 1))) (initial q t0)
                   = setPc Returned (setPc AwaitAll (initial q t0))).
  { change (S (S (3 * length q + 1))) with (2 + (3 * length q + 1))%nat.
    rewrite SchedulerProps.steps_add. simpl steps at 2. rewrite Hstep.
    by rewrite SchedulerProps.steps_returned. }
  rewrite Hfinal. simpl. eexists. split; [reflexivity|]. done.
Qed.

Lemma negative_duration_returns_nothing_witness :
  -1 < 0 ∧
  ∃ summary,
    runLoadTest (steadyWorld 40) 0 ["a"; "b"] (mkOptions 3 1 (Some (-1)))
      = Some ([], summary) ∧
    minResponseTime summary = PosInf.
Proof.
  split; [lia|].
  destruct (negative_duration_returns_nothing (steadyWorld 40) 0 ["a"; "b"]
              (mkOptions 3 1 (Some (-1))) (-1))
    as (summary & Hrun & _ & Hmin & _); [reflexivity|lia|].
  by exists summary.
Defined.

End SchedulerMore.

(** ** Sitemap resolver: what is emitted *)

Module ResolverMore.
Import JS Sitemap Aux.

Lemma pagesOf_locations (result : ParsedSitemap) (p : string) :
  p ∈ pagesOf (processedLocs result) → p ∈ locations (WellFormed result).
Proof.
  assert (Hgen : ∀ {A} (f : A → list string) (es : list A),
            p ∈ pagesOf (map f es) → p ∈ flat_map (λ e, firstLoc (f e)) es).
  { intros A f es. induction es as [|e es IH]; simpl; [done|].
    unfold pagesOf in *. simpl. rewrite !elem_of_app. intros [Hp|Hp]; [left|right; by apply IH].
    destruct (f e) as [|l ?]; [done|]. simpl.
    destruct (bool_decide (l = EmptyString)); [by apply elem_of_nil in Hp|].
    destruct (endsWith l ".xml"); [by apply elem_of_nil in Hp|done]. }
  unfold processedLocs, locations.
  destruct (sitemapIndex result) as [index|].
  - intros Hp. apply elem_of_app. left. by apply Hgen.
  - destruct (urlset result) as [set|]; [|done].
    intros Hp. apply elem_of_app. right. by apply Hgen.
Qed.

Lemma pagesOf_mentioned (web : Web) (sitemapUrl : string) (result : ParsedSitemap) :
  web !! sitemapUrl = Some (WellFormed result) →
  Forall (mentioned web) (pagesOf (processedLocs result)).
Proof.
  intros Hweb. apply Forall_forall. intros p Hp.
  exists sitemapUrl, (WellFormed result). split; [done|]. by apply pagesOf_locations.
Qed.

(** *** A document without nested sitemaps *)

Lemma forSitemaps_flat (self : string → M (list string)) (sitemaps : list SitemapEntry)
    (urls : list string) (st : Crawl) :
  nestedOf (map SitemapEntry_loc sitemaps) = [] →
  forSitemaps self sitemaps urls st
  = Some (Normal (urls ++ pagesOf (map SitemapEntry_loc sitemaps)), st).
Proof.
  revert urls; induction sitemaps as [|e es IH]; intros urls Hflat.
  - simpl. by rewrite app_nil_r.
  - unfold nestedOf, pagesOf in *. simpl in *.
    destruct (SitemapEntry_loc e) as [|l ?]; [by apply IH|].
    case_bool_decide; [by apply IH|].
    destruct (endsWith l ".xml"); [done|].
    simpl in *. rewrite IH by done. by rewrite <- app_assoc.
Qed.

Lemma asSitemapEntry_locs (urlEntries : list SitemapUrl) :
  map SitemapEntry_loc (map asSitemapEntry urlEntries) = map SitemapUrl_loc urlEntries.
Proof. rewrite map_map. done. Qed.

(** What the body of the [try] block makes of a well-formed document:
    the loop over [processedLocs]. *)
Lemma body_processed (self : string → M (list string)) (result : ParsedSitemap)
    (st : Crawl) :
  ∃ sitemaps,
    map SitemapEntry_loc sitemaps = processedLocs result ∧
    match sitemapIndex result with
    | Some index => forSitemaps self (sitemap index) []
    | None =>
        match urlset result with
        | Some set => forUrlEntries self (Sitemap.url set) []
        | None => ret []
        end
    end st
    = forSitemaps self sitemaps [] st.
Proof.
  unfold processedLocs. destruct (sitemapIndex result) as [index|].
  - by exists (sitemap index).
  - destruct (urlset result) as [set|].
    + exists (map asSitemapEntry (Sitemap.url set)).
      split; [apply asSitemapEntry_locs|apply ResolverProps.forUrlEntries_forSitemaps].
    + by exists [].
Qed.

(** One level of the recursion, for an unvisited URL that serves a
    well-formed document. *)
Lemma extract_unfold (web : Web) (fuel : nat) (sitemapUrl : string) (st : Crawl)
    (result : ParsedSitemap) :
  sitemapUrl ∉ visitedSitemaps st →
  web !! sitemapUrl = Some (WellFormed result) →
  ∃ sitemaps,
    map SitemapEntry_loc sitemaps = processedLocs result ∧
    extractUrlsFromSitemap web (S fuel) sitemapUrl st
    = match forSitemaps (extractUrlsFromSitemap web fuel) sitemaps []
              {| visitedSitemaps := {[sitemapUrl]} ∪ visitedSitemaps st;
                 fetched := fetched st ++ [sitemapUrl] |} with
      | Some (Normal a, st') => Some (Normal a, st')
      | Some (Throw _, st') => Some (Normal [], st')
      | None => None
      end.
Proof.
  intros Hvis Hweb.
  destruct (body_processed (extractUrlsFromSitemap web fuel) result
              {| visitedSitemaps := {[sitemapUrl]} ∪ visitedSitemaps st;
                 fetched := fetched st ++ [sitemapUrl] |}) as (sitemaps & Hlocs & Hbody).
  exists sitemaps. split; [done|]. rewrite <- Hbody.
  change (extractUrlsFromSitemap web (S fuel) sitemapUrl st)
    with (if bool_decide (sitemapUrl ∈ visitedSitemaps st) then ret [] st
          else (markVisited sitemapUrl;;
                tryM (data ← axios_get web sitemapUrl;
                      result ← parseXML data;
                      match sitemapIndex result with
                      | Some index =>
                          forSitemaps (extractUrlsFromSitemap web fuel) (sitemap index) []
                      | None =>
                          match urlset result with
                          | Some set =>
                              forUrlEntries (extractUrlsFromSitemap web fuel)
                                (Sitemap.url set) []
                          | None => ret []
                          end
                      end)
                     (λ error, ret [])) st).
  rewrite bool_decide_eq_false_2 by done.
  unfold mbind, M_bind, bind, markVisited, tryM, axios_get;
    cbn -[extractUrlsFromSitemap].
  rewrite Hweb. cbn -[extractUrlsFromSitemap]. done.
Qed.

(** X15.  A document whose locations are all pages: the result is the list of
    these locations, in document order and with repetitions, after one
    fetch. *)
Theorem flat_document (web : Web) (root : string) (result : ParsedSitemap) :
  web !! root = Some (WellFormed result) →
  nestedOf (processedLocs result) = [] →
  resolve web root
  = Some (Normal (pagesOf (processedLocs result)),
          {| visitedSitemaps := {[root]} ∪ ∅; fetched := [root] |}).
Proof.
  intros Hweb Hflat. unfold resolve.
  destruct (extract_unfold web (size (universe web root)) root fresh result)
    as (sitemaps & Hlocs & ->); [set_solver|done|].
  rewrite <- Hlocs in *. by rewrite forSitemaps_flat.
Qed.

Lemma flat_document_witness :
  cyclicWeb !! "C.xml" = Some (urlsetOf ["c1"; "c2"]) ∧
  resolve cyclicWeb "C.xml"
  = Some (Normal ["c1"; "c2"], {| visitedSitemaps := {["C.xml"]} ∪ ∅; fetched := ["C.xml"] |}).
Proof.
  split; [by vm_compute|].
  apply (flat_document cyclicWeb "C.xml"
           {| urlset :=
                Some {| Sitemap.url :=
                          map (λ l, {| SitemapUrl_loc := [l]; SitemapUrl_lastmod := None;
                                       changefreq := None; priority := None |})
                              ["c1"; "c2"] |};
              sitemapIndex := None |}); by vm_compute.
Defined.

(** *** What a returning call has done *)

Lemma forSitemaps_post (web : Web) (self : string → M (list string))
    (sitemaps : list SitemapEntry) :
  (∀ u st c st', self u st = Some (c, st') → callPost web u st c st') →
  Forall (mentioned web) (pagesOf (map SitemapEntry_loc sitemaps)) →
  ∀ urls st c st',
    forSitemaps self sitemaps urls st = Some (c, st') →
    loopPost web (map SitemapEntry_loc sitemaps) urls st c st'.
Proof.
  intros Hself. induction sitemaps as [|e es IH]; intros Hment urls st c st'.
  - simpl. intros [= <- <-]. exists [], [].
    rewrite !app_nil_r. repeat split; try done; [set_solver|set_solver].
  - unfold pagesOf in Hment. simpl in Hment. simpl forSitemaps.
    unfold loopPost, pagesOf. simpl map. simpl flat_map.
    destruct (SitemapEntry_loc e) as [|l more] eqn:Hloc; [by apply IH|].
    destruct (bool_decide (l = EmptyString)); [by apply IH|].
    destruct (endsWith l ".xml") eqn:Hxml.
    + unfold mbind, M_bind, bind.
      destruct (self l st) as [[c1 st1]|] eqn:Hcall; [|done].
      destruct (Hself _ _ _ _ Hcall) as (new1 & out1 & -> & Hf1 & Hv1 & Hm1 & Hp1 & _).
      intros Hloop.
      destruct (IH Hment _ _ _ _ Hloop) as (new2 & out2 & -> & Hf2 & Hv2 & Hm2 & Hp2 & Hsub).
      exists (new1 ++ new2), (out1 ++ out2).
      split; [by rewrite app_assoc|].
      split; [by rewrite Hf2, Hf1, app_assoc|].
      split; [rewrite Hv2, Hv1, list_to_set_app_L; set_solver|].
      split; [by apply Forall_app|].
      split; [|by apply sublist_inserts_l].
      intros u result p [Hu|Hu]%elem_of_app Hweb Hp; apply elem_of_app;
        [left; by eapply Hp1|right; by eapply Hp2].
    + apply Forall_app in Hment as [Hl Hment]. intros Hloop.
      destruct (IH Hment _ _ _ _ Hloop) as (new2 & out2 & -> & Hf2 & Hv2 & Hm2 & Hp2 & Hsub).
      exists new2, (l :: out2).
      split; [by rewrite <- app_assoc|].
      split; [done|]. split; [done|].
      split; [constructor; [by inversion Hl|done]|].
      split; [|by apply sublist_skip].
      intros u result p Hu Hweb Hp. apply list_elem_of_further. by eapply Hp2.
Qed.

Lemma extract_post (web : Web) (fuel : nat) :
  ∀ sitemapUrl st c st',
    extractUrlsFromSitemap web fuel sitemapUrl st = Some (c, st') →
    callPost web sitemapUrl st c st'.
Proof.
  induction fuel as [|fuel IH]; intros sitemapUrl st c st'; [done|].
  destruct (decide (sitemapUrl ∈ visitedSitemaps st)) as [Hvis|Hvis].
  { simpl. rewrite bool_decide_eq_true_2 by done. intros [= <- <-].
    exists [], []. rewrite app_nil_r.
    repeat split; try done; [set_solver|by intros ??? ?%elem_of_nil]. }
  destruct (web !! sitemapUrl) as [[result|]|] eqn:Hweb.
  - destruct (extract_unfold web fuel sitemapUrl st result Hvis Hweb)
      as (sitemaps & Hlocs & ->).
    destruct (forSitemaps _ sitemaps [] _) as [[c1 st1]|] eqn:Hloop; [|done].
    apply (forSitemaps_post web _ _ IH) in Hloop
      as (new & out & -> & Hf & Hv & Hm & Hp & Hsub);
      [|rewrite Hlocs; by eapply pagesOf_mentioned].
    simpl. intros [= <- <-]. simpl in Hf, Hv.
    exists (sitemapUrl :: new), out.
    split; [done|]. split; [by rewrite Hf, <- app_assoc|].
    split; [rewrite Hv; set_solver|]. split; [done|].
    rewrite Hlocs in Hsub. split.
    + intros u result' p [->|Hu]%elem_of_cons Hweb' Hp'; [|by eapply Hp].
      rewrite Hweb in Hweb'. injection Hweb' as <-.
      by eapply elem_of_sublist.
    + intros _ result' Hweb'. rewrite Hweb in Hweb'. by injection Hweb' as <-.
  - simpl. rewrite bool_decide_eq_false_2 by done.
    unfold mbind, M_bind, bind, markVisited, tryM, axios_get. simpl. rewrite Hweb. simpl.
    intros [= <- <-]. exists [sitemapUrl], []. simpl.
    repeat split; try done; [set_solver| |].
    + intros u result p ->%list_elem_of_singleton Hweb'. by rewrite Hweb in Hweb'.
    + intros _ result Hweb'. by rewrite Hweb in Hweb'.
  - simpl. rewrite bool_decide_eq_false_2 by done.
    unfold mbind, M_bind, bind, markVisited, tryM, axios_get. simpl. rewrite Hweb. simpl.
    intros [= <- <-]. exists [sitemapUrl], []. simpl.
    repeat split; try done; [set_solver| |].
    + intros u result p ->%list_elem_of_singleton Hweb'. by rewrite Hweb in Hweb'.
    + intros _ result Hweb'. by rewrite Hweb in Hweb'.
Qed.

Lemma resolve_post (web : Web) (root : string) :
  ∃ urls final,
    resolve web root = Some (Normal urls, final) ∧
    callPost web root fresh (Normal urls) final.
Proof.
  destruct (ResolverProps.resolve_good web root) as (urls & final & Hres & _).
  exists urls, final. split; [done|]. by eapply extract_post.
Qed.

(** X18.  Every URL the resolver returns is a location of a document the graph
    serves: nothing is made up. *)
Theorem emitted_are_mentioned (web : Web) (root : string) :
  ∃ urls final,
    resolve web root = Some (Normal urls, final) ∧
    Forall (mentioned web) urls.
Proof.
  destruct (resolve_post web root)
    as (urls & final & Hres & new & out & [= <-] & _ & _ & Hm & _).
  by exists urls, final.
Qed.

(** X19.  After a resolution the visited set is exactly the set of fetched
    URLs, and the root is the first of them. *)
Theorem visited_is_fetched (web : Web) (root : string) :
  ∃ c final,
    resolve web root = Some (c, final) ∧
    visitedSitemaps final = list_to_set (fetched final) ∧
    head (fetched final) = Some root.
Proof.
  destruct (ResolverProps.resolve_good web root)
    as (urls & final & Hres & _ & _ & [Hin|[_ [rest Hrest]]]);
    [by apply elem_of_empty in Hin|].
  destruct (extract_post _ _ _ _ _ _ Hres) as (new & out & _ & Hf & Hv & _).
  exists (Normal urls), final. split; [done|]. simpl in *.
  split; [rewrite Hv, Hf; set_solver|]. by rewrite Hrest.
Qed.

(** X16.  The page locations of the root document appear in the result in
    document order. *)
Theorem root_pages_in_order (web : Web) (root : string) (result : ParsedSitemap) :
  web !! root = Some (WellFormed result) →
  ∃ urls final,
    resolve web root = Some (Normal urls, final) ∧
    pagesOf (processedLocs result) `sublist_of` urls.
Proof.
  intros Hweb.
  destruct (resolve_post web root)
    as (urls & final & Hres & new & out & [= <-] & _ & _ & _ & _ & Hsub).
  exists urls, final. split; [done|]. apply Hsub; [set_solver|done].
Qed.

Lemma root_pages_in_order_witness :
  cyclicWeb !! "D.xml" = Some (urlsetOf ["d1"; "E.xml"]) ∧
  ∃ urls final,
    resolve cyclicWeb "D.xml" = Some (Normal urls, final) ∧
    ["d1"] `sublist_of` urls.
Proof.
  split; [by vm_compute|].
  destruct (root_pages_in_order cyclicWeb "D.xml"
              {| urlset :=
                   Some {| Sitemap.url :=
                             map (λ l, {| SitemapUrl_loc := [l]; SitemapUrl_lastmod := None;
                                          changefreq := None; priority := None |})
                                 ["d1"; "E.xml"] |};
                 sitemapIndex := None |})
    as (urls & final & Hres & Hsub); [by vm_compute|].
  exists urls, final. split; [exact Hres|exact Hsub].
Defined.

End ResolverMore.

(** ** The scraping branch of the script *)

Module MainProps.
Import JS Sitemap Main Aux.

Lemma checkPages_answered404 (head : nat → string → Transport) (urls : list string) :
  ∀ i notFoundUrls,
    checkPages head i urls notFoundUrls = notFoundUrls ++ answered404 head i urls.
Proof.
  induction urls as [|url rest IH]; intros i acc; simpl.
  - by rewrite app_nil_r.
  - destruct (head i url) as [status|reason]; simpl; [|apply IH].
    unfold checkPageExist, axios_head, try_catch, isNotFound.
    case_bool_decide as H404.
    + subst. simpl. rewrite IH. by rewrite <- app_assoc.
    + destruct ((200 <=? status) && (status <? 300)); simpl; [apply IH|].
      rewrite bool_decide_eq_false_2 by congruence. apply IH.
Qed.

Lemma answered404_sublist (head : nat → string → Transport) (urls : list string) :
  ∀ i, answered404 head i urls `sublist_of` urls.
Proof.
  induction urls as [|url rest IH]; intros i; simpl; [done|].
  destruct (is404 (head i url)); [by apply sublist_skip|by apply sublist_cons].
Qed.

Lemma is404_spec (t : Transport) : is404 t = true ↔ t = Answered 404.
Proof.
  destruct t as [status|reason]; simpl; [|done].
  rewrite bool_decide_eq_true. split; [by intros ->|by intros [= ->]].
Qed.

Lemma answered404_elem (head : nat → string → Transport) (urls : list string) (u : string) :
  ∀ i, u ∈ answered404 head i urls ↔
       ∃ j, urls !! j = Some u ∧ head (i + j)%nat u = Answered 404.
Proof.
  induction urls as [|url rest IH]; intros i; simpl.
  - split; [by intros ?%elem_of_nil|by intros (j & ? & _)].
  - destruct (is404 (head i url)) eqn:E.
    + rewrite elem_of_cons, IH. split.
      * intros [->|(j & Hj & H404)].
        -- exists 0%nat. rewrite Nat.add_0_r. split; [done|by apply is404_spec].
        -- exists (S j). rewrite Nat.add_succ_r. by split.
      * intros ([|j] & Hj & H404); simpl in Hj.
        -- left. by injection Hj.
        -- right. exists j. by rewrite Nat.add_succ_r in H404.
    + rewrite IH. split.
      * intros (j & Hj & H404). exists (S j). rewrite Nat.add_succ_r. by split.
      * intros ([|j] & Hj & H404); simpl in Hj.
        -- injection Hj as ->. rewrite Nat.add_0_r in H404.
           apply is404_spec in H404. congruence.
        -- exists j. by rewrite Nat.add_succ_r in H404.
Qed.

(** X20.  The loop that checks the pages collects exactly the URLs whose HEAD
    request is answered 404, in the order of the list and as often as
    they occur there; any other answer, and any failure of a check,
    leaves the list as it is and the loop running. *)
Theorem not_found_are_the_404s (head : nat → string → Transport) (urls : list string) :
  checkPages head 0 urls [] `sublist_of` urls ∧
  ∀ u, u ∈ checkPages head 0 urls [] ↔
       ∃ j, urls !! j = Some u ∧ head j u = Answered 404.
Proof.
  rewrite checkPages_answered404. simpl. split; [apply answered404_sublist|].
  intros u. by rewrite answered404_elem.
Qed.

Lemma not_found_are_the_404s_witness :
  ["a"; "b"; "c"; "d"] !! 1%nat = Some "b" ∧
  sampleHead 1 "b" = Answered 404 ∧
  "b" ∈ checkPages sampleHead 0 ["a"; "b"; "c"; "d"] [].
Proof.
  split; [reflexivity|]. split; [reflexivity|].
  destruct (not_found_are_the_404s sampleHead ["a"; "b"; "c"; "d"]) as [_ H].
  apply H. exists 1%nat. split; reflexivity.
Defined.

(** X21.  The scraping branch always produces its two lists; the 404 list is a
    sub-sequence of the URL list, so it contains no entry ending in
    [.xml] and nothing that is not a location of a served document. *)
Theorem scrape_outputs (web : Web) (head : nat → string → Transport) (root : string) :
  ∃ urls notFoundUrls,
    scrape web head root = Some (urls, notFoundUrls) ∧
    notFoundUrls `sublist_of` urls ∧
    Forall (λ u, endsWith u ".xml" = false) notFoundUrls ∧
    Forall (mentioned web) notFoundUrls.
Proof.
  destruct (ResolverProps.resolve_good web root) as (urls & final & Hres & _ & Hxml & _).
  destruct (ResolverMore.resolve_post web root)
    as (urls' & final' & Hres' & new & out & [= <-] & _ & _ & Hm & _).
  rewrite Hres in Hres'. injection Hres' as <- <-.
  exists urls, (checkPages head 0 urls []).
  unfold scrape. rewrite Hres. split; [done|].
  rewrite checkPages_answered404. simpl.
  pose proof (answered404_sublist head urls 0) as Hsub.
  split; [done|].
  rewrite Forall_forall in Hxml. rewrite Forall_forall in Hm.
  split; apply Forall_forall; intros u Hu.
  - apply Hxml. by eapply elem_of_sublist.
  - apply Hm. by eapply elem_of_sublist.
Qed.

End MainProps.
